(** * Diffuse-lighting ray tracer: shallow embedding of [src/index.js]

    The classes of the source become modules holding a record and its
    methods.  The source computes with JavaScript Numbers, which are
    binary64 floating-point numbers.  It is embedded twice.

    The first embedding, the modules [Vector3] to [Renderer], takes a
    Number to be a real number: [+ - * /] are the field operations,
    [Math.sqrt] is [sqrt], [Math.abs] is [Rabs], [Math.max] and
    [Math.min] are [Rmax] and [Rmin], [Math.floor] is [Zfloor], and the
    comparisons [<], [>], [>=], [===] are the decidable order and equality
    of [R].  What is proved of it is proved of the arithmetic the source
    writes, carried out exactly.  Where the real operations are total and
    those of the source are not:
    - every square root of the source is taken of a sum of squares, or of
      the discriminant after the test that it is not negative;
    - every division but one is reached only past a test on its divisor
      ([normalize], [Plane.intersect]) or inside a loop that runs only
      when the divisor is positive (the pixel loops);
    - the division of [Sphere.intersect] by [2 * a], with
      [a = direction . direction], is not guarded.  For [a = 0] the source
      computes NaN, which fails both [> 0.001] tests; the model computes
      [0], which fails them too: lemma [Sphere_intersect_zero_direction].

    The second embedding, the module [B64], takes a Number to be a
    binary64 float: the operations are those of IEEE 754, rounded to
    nearest, and it runs.  It covers the vector operations, rays and
    spheres, and shows where rounding, underflow and overflow take the
    source away from the exact arithmetic: a squared norm under 1e-308 or
    over 1e308, a radius far smaller than the distance to the sphere.

    Objects are values here.  The source mutates only the colour it has
    just allocated (the clamp) and the array of the image, which is
    threaded through [Renderer.render] as state. *)

From Stdlib Require Import Reals Lra Lia ZArith.
From Stdlib Require Floats.
From stdpp Require Import base list.

Set Warnings "-inexact-float".

Open Scope R_scope.

(** ** class Vector3 *)
Module Vector3.

Record t : Type := new { x : R; y : R; z : R }.

Definition add (this v : t) : t :=
  new (x this + x v) (y this + y v) (z this + z v).

Definition subtract (this v : t) : t :=
  new (x this - x v) (y this - y v) (z this - z v).

Definition multiply (this : t) (scalar : R) : t :=
  new (x this * scalar) (y this * scalar) (z this * scalar).

Definition dot (this v : t) : R :=
  x this * x v + y this * y v + z this * z v.

Definition cross (this v : t) : t :=
  new (y this * z v - z this * y v)
      (z this * x v - x this * z v)
      (x this * y v - y this * x v).

Definition length (this : t) : R :=
  sqrt (x this * x this + y this * y this + z this * z this).

Definition normalize (this : t) : t :=
  let len := length this in
  if Req_dec_T len 0 then new 0 0 0
  else new (x this / len) (y this / len) (z this / len).

Definition distanceTo (this v : t) : R :=
  let dx := x this - x v in
  let dy := y this - y v in
  let dz := z this - z v in
  sqrt (dx * dx + dy * dy + dz * dz).

End Vector3.

(** ** class Ray: the constructor normalizes the direction it is given. *)
Module Ray.

Record t : Type := mk { origin : Vector3.t; direction : Vector3.t }.

Definition new (origin direction : Vector3.t) : t :=
  mk origin (Vector3.normalize direction).

Definition pointAt (this : t) (t0 : R) : Vector3.t :=
  Vector3.add (origin this) (Vector3.multiply (direction this) t0).

End Ray.

(** ** class Sphere.  [None] is the source's [null]. *)
Module Sphere.

Record t : Type :=
  new { position : Vector3.t; radius : R; color : Vector3.t }.

Definition intersect (this : t) (ray : Ray.t) : option R :=
  let oc := Vector3.subtract (Ray.origin ray) (position this) in
  let a := Vector3.dot (Ray.direction ray) (Ray.direction ray) in
  let b := 2 * Vector3.dot oc (Ray.direction ray) in
  let c := Vector3.dot oc oc - radius this * radius this in
  let discriminant := b * b - 4 * a * c in
  if Rlt_dec discriminant 0 then None
  else
    let t1 := (- b - sqrt discriminant) / (2 * a) in
    if Rgt_dec t1 0.001 then Some t1
    else
      let t2 := (- b + sqrt discriminant) / (2 * a) in
      if Rgt_dec t2 0.001 then Some t2 else None.

Definition normalAt (this : t) (point : Vector3.t) : Vector3.t :=
  Vector3.normalize (Vector3.subtract point (position this)).

End Sphere.

(** ** class Plane: the constructor normalizes the normal it is given. *)
Module Plane.

Record t : Type :=
  mk { position : Vector3.t; normal : Vector3.t; color : Vector3.t }.

Definition new (position normal color : Vector3.t) : t :=
  mk position (Vector3.normalize normal) color.

Definition intersect (this : t) (ray : Ray.t) : option R :=
  let denom := Vector3.dot (normal this) (Ray.direction ray) in
  if Rgt_dec (Rabs denom) 0.001 then
    let t0 :=
      Vector3.dot (Vector3.subtract (position this) (Ray.origin ray))
                  (normal this) / denom in
    if Rge_dec t0 0.001 then Some t0 else None
  else None.

Definition normalAt (this : t) (point : Vector3.t) : Vector3.t :=
  normal this.

End Plane.

(** ** class SceneObject and its two subclasses, as one sum type.
    [Base] is an instance of the base class itself, whose methods are
    the defaults the subclasses override. *)
Module SceneObject.

Inductive t : Type :=
| Base (position color : Vector3.t)
| OfSphere (s : Sphere.t)
| OfPlane (p : Plane.t).

Definition position (this : t) : Vector3.t :=
  match this with
  | Base p _ => p
  | OfSphere s => Sphere.position s
  | OfPlane p => Plane.position p
  end.

Definition color (this : t) : Vector3.t :=
  match this with
  | Base _ c => c
  | OfSphere s => Sphere.color s
  | OfPlane p => Plane.color p
  end.

Definition intersect (this : t) (ray : Ray.t) : option R :=
  match this with
  | Base _ _ => None
  | OfSphere s => Sphere.intersect s ray
  | OfPlane p => Plane.intersect p ray
  end.

Definition normalAt (this : t) (point : Vector3.t) : Vector3.t :=
  match this with
  | Base _ _ => Vector3.new 0 0 0
  | OfSphere s => Sphere.normalAt s point
  | OfPlane p => Plane.normalAt p point
  end.

End SceneObject.

(** ** class Light *)
Module Light.

Record t : Type := new { position : Vector3.t; intensity : R }.

End Light.

(** ** class Scene *)
Module Scene.

Record t : Type :=
  mk { objects : list SceneObject.t;
       lights : list Light.t;
       backgroundColor : Vector3.t }.

Definition new : t := mk [] [] (Vector3.new 0.1 0.1 0.2).

Definition addObject (this : t) (object : SceneObject.t) : t :=
  mk (objects this ++ [object]) (lights this) (backgroundColor this).

Definition addLight (this : t) (light : Light.t) : t :=
  mk (objects this) (lights this ++ [light]) (backgroundColor this).

(** One iteration of the nearest-hit loop.  [closestIntersection] and
    [closestObject] are assigned together in the source, so they are one
    optional pair here. *)
Definition closest_step (ray : Ray.t)
    (closest : option (R * SceneObject.t)) (object : SceneObject.t)
    : option (R * SceneObject.t) :=
  match SceneObject.intersect object ray with
  | Some t0 =>
      match closest with
      | None => Some (t0, object)
      | Some (closestIntersection, _) =>
          if Rlt_dec t0 closestIntersection then Some (t0, object)
          else closest
      end
  | None => closest
  end.

(** The nearest-hit loop, from the state [closest]. *)
Fixpoint closest_scan (ray : Ray.t) (objs : list SceneObject.t)
    (closest : option (R * SceneObject.t)) : option (R * SceneObject.t) :=
  match objs with
  | [] => closest
  | object :: rest => closest_scan ray rest (closest_step ray closest object)
  end.

(** The shadow loop: the value of [inShadow] when it ends, [break]
    leaving it at the first occluder. *)
Fixpoint shadow_scan (shadowRay : Ray.t) (lightDistance : R)
    (objs : list SceneObject.t) : bool :=
  match objs with
  | [] => false
  | obj :: rest =>
      match SceneObject.intersect obj shadowRay with
      | Some shadowT =>
          if Rlt_dec shadowT lightDistance then true
          else shadow_scan shadowRay lightDistance rest
      | None => shadow_scan shadowRay lightDistance rest
      end
  end.

(** The body of the loop over the lights, from the colour so far. *)
Definition light_step (objs : list SceneObject.t)
    (closestObject : SceneObject.t) (intersectionPoint normal : Vector3.t)
    (color : Vector3.t) (light : Light.t) : Vector3.t :=
  let lightDirection :=
    Vector3.normalize
      (Vector3.subtract (Light.position light) intersectionPoint) in
  let shadowRay :=
    Ray.new (Vector3.add intersectionPoint (Vector3.multiply normal 0.001))
            lightDirection in
  let inShadow :=
    shadow_scan shadowRay
      (Vector3.distanceTo (Light.position light) intersectionPoint) objs in
  let color :=
    if negb inShadow then
      let diffuse := Rmax 0 (Vector3.dot normal lightDirection) in
      let diffuseColor :=
        Vector3.multiply (SceneObject.color closestObject)
                         (diffuse * Light.intensity light) in
      Vector3.add color diffuseColor
    else color in
  let ambient := 0.2 in
  let ambientColor :=
    Vector3.multiply (SceneObject.color closestObject) ambient in
  Vector3.add color ambientColor.

(** The colour when the loop over the lights ends, before clamping. *)
Definition shade (this : t) (closestObject : SceneObject.t)
    (intersectionPoint normal : Vector3.t) : Vector3.t :=
  fold_left
    (light_step (objects this) closestObject intersectionPoint normal)
    (lights this) (Vector3.new 0 0 0).

(** The three assignments that clamp the channels. *)
Definition clamp (color : Vector3.t) : Vector3.t :=
  Vector3.new (Rmin 1 (Rmax 0 (Vector3.x color)))
              (Rmin 1 (Rmax 0 (Vector3.y color)))
              (Rmin 1 (Rmax 0 (Vector3.z color))).

Definition trace (this : t) (ray : Ray.t) (depth maxDepth : R) : Vector3.t :=
  if Rge_dec depth maxDepth then backgroundColor this
  else
    match closest_scan ray (objects this) None with
    | None => backgroundColor this
    | Some (closestIntersection, closestObject) =>
        let intersectionPoint := Ray.pointAt ray closestIntersection in
        let normal := SceneObject.normalAt closestObject intersectionPoint in
        clamp (shade this closestObject intersectionPoint normal)
    end.

(** [trace(ray)], with the default [depth = 0] and [maxDepth = 3]. *)
Definition trace_default (this : t) (ray : Ray.t) : Vector3.t :=
  trace this ray 0 3.

End Scene.

(** ** class Renderer.  The canvas gives the two sizes; [imageData] is
    the array [imageData.data], a [Uint8ClampedArray]: a cell holds the
    integer assigned to it brought into the range 0 to 255, and an
    assignment outside the array is dropped. *)
Module Renderer.

Record t : Type :=
  mk { scene : Scene.t; width : nat; height : nat; imageData : list Z }.

Definition new (canvas_width canvas_height : nat) (scene : Scene.t) : t :=
  mk scene canvas_width canvas_height
     (replicate (canvas_width * canvas_height * 4) 0%Z).

(** [for (let i = start; ...; i++)] running [count] times. *)
Fixpoint for_loop {St : Type} (i count : nat) (body : nat -> St -> St)
    (s : St) : St :=
  match count with
  | O => s
  | S n => for_loop (S i) n body (body i s)
  end.

(** What a cell of a [Uint8ClampedArray] holds after an integer is
    assigned to it. *)
Definition toUint8Clamp (v : Z) : Z := Z.max 0 (Z.min 255 v).

Definition cameraPosition : Vector3.t := Vector3.new 0 2 10.

(** The ray cast through pixel [(px, py)]. *)
Definition pixel_ray (this : t) (px py : nat) : Ray.t :=
  let px' := (INR px / INR (width this)) * 2 - 1 in
  let py' := (- (INR py / INR (height this))) * 2 + 1 in
  let rayDirection := Vector3.normalize (Vector3.new px' py' (-1)) in
  Ray.new cameraPosition rayDirection.

(** The body of the inner loop, on the array. *)
Definition render_pixel (this : t) (py px : nat) (data : list Z) : list Z :=
  let ray := pixel_ray this px py in
  let color := Scene.trace_default (scene this) ray in
  let r := Zfloor (Vector3.x color * 255) in
  let g := Zfloor (Vector3.y color * 255) in
  let b := Zfloor (Vector3.z color * 255) in
  let index := ((py * width this + px) * 4)%nat in
  <[(index + 3)%nat := toUint8Clamp 255]>
    (<[(index + 2)%nat := toUint8Clamp b]>
      (<[(index + 1)%nat := toUint8Clamp g]>
        (<[index := toUint8Clamp r]> data))).

Definition render_row (this : t) (py : nat) (data : list Z) : list Z :=
  for_loop 0 (width this) (render_pixel this py) data.

Definition render (this : t) : t :=
  mk (scene this) (width this) (height this)
     (for_loop 0 (height this) (render_row this) (imageData this)).

End Renderer.

(** * The same classes over binary64

    [Vector3], [Ray] and [Sphere] once more, a Number being a binary64
    float.  [===] is [PrimFloat.eqb] and [a > b] is [PrimFloat.ltb b a]:
    both are false when an operand is NaN, and [+0] equals [-0]. *)
Module B64.

Import Floats.
Local Open Scope float_scope.

Module Vector3.

Record t : Type := new { x : float; y : float; z : float }.

Definition add (this v : t) : t :=
  new (x this + x v) (y this + y v) (z this + z v).

Definition subtract (this v : t) : t :=
  new (x this - x v) (y this - y v) (z this - z v).

Definition multiply (this : t) (scalar : float) : t :=
  new (x this * scalar) (y this * scalar) (z this * scalar).

Definition dot (this v : t) : float :=
  x this * x v + y this * y v + z this * z v.

Definition length (this : t) : float :=
  PrimFloat.sqrt (x this * x this + y this * y this + z this * z this).

Definition normalize (this : t) : t :=
  let len := length this in
  if PrimFloat.eqb len 0 then new 0 0 0
  else new (x this / len) (y this / len) (z this / len).

End Vector3.

Module Ray.

Record t : Type := mk { origin : Vector3.t; direction : Vector3.t }.

Definition new (origin direction : Vector3.t) : t :=
  mk origin (Vector3.normalize direction).

Definition pointAt (this : t) (t0 : float) : Vector3.t :=
  Vector3.add (origin this) (Vector3.multiply (direction this) t0).

End Ray.

Module Sphere.

Record t : Type :=
  new { position : Vector3.t; radius : float; color : Vector3.t }.

Definition intersect (this : t) (ray : Ray.t) : option float :=
  let oc := Vector3.subtract (Ray.origin ray) (position this) in
  let a := Vector3.dot (Ray.direction ray) (Ray.direction ray) in
  let b := 2 * Vector3.dot oc (Ray.direction ray) in
  let c := Vector3.dot oc oc - radius this * radius this in
  let discriminant := b * b - 4 * a * c in
  if PrimFloat.ltb discriminant 0 then None
  else
    let t1 := (- b - PrimFloat.sqrt discriminant) / (2 * a) in
    if PrimFloat.ltb 0.001 t1 then Some t1
    else
      let t2 := (- b + PrimFloat.sqrt discriminant) / (2 * a) in
      if PrimFloat.ltb 0.001 t2 then Some t2 else None.

Definition normalAt (this : t) (point : Vector3.t) : Vector3.t :=
  Vector3.normalize (Vector3.subtract point (position this)).

End Sphere.

(** Inputs on which the source leaves the exact arithmetic. *)

Definition zero : Vector3.t := Vector3.new 0 0 0.

(** A vector whose squared norm overflows, and one whose squared norm
    is subnormal. *)
Definition huge : Vector3.t := Vector3.new 1e200 0 0.
Definition subnormal : Vector3.t := Vector3.new 3e-162 4e-162 0.




(** Whether a float lies strictly between two others. *)
Definition between (lo hi v : float) : bool :=
  PrimFloat.ltb lo v && PrimFloat.ltb v hi.

Definition bound_1_005 : float := 1.005.
Definition bound_1_007 : float := 1.007.

End B64.

(** * Quantities the specification names *)

(** The coefficients of the quadratic [a t^2 + b t + c = 0] solved for a
    ray and a sphere, its discriminant and its two roots. *)
Definition quad_a (ray : Ray.t) : R :=
  Vector3.dot (Ray.direction ray) (Ray.direction ray).

Definition quad_b (s : Sphere.t) (ray : Ray.t) : R :=
  2 * Vector3.dot (Vector3.subtract (Ray.origin ray) (Sphere.position s))
                  (Ray.direction ray).

Definition quad_c (s : Sphere.t) (ray : Ray.t) : R :=
  Vector3.dot (Vector3.subtract (Ray.origin ray) (Sphere.position s))
              (Vector3.subtract (Ray.origin ray) (Sphere.position s))
  - Sphere.radius s * Sphere.radius s.

Definition quad_discriminant (s : Sphere.t) (ray : Ray.t) : R :=
  quad_b s ray * quad_b s ray - 4 * quad_a ray * quad_c s ray.

Definition root_near (s : Sphere.t) (ray : Ray.t) : R :=
  (- quad_b s ray - sqrt (quad_discriminant s ray)) / (2 * quad_a ray).

Definition root_far (s : Sphere.t) (ray : Ray.t) : R :=
  (- quad_b s ray + sqrt (quad_discriminant s ray)) / (2 * quad_a ray).

(** The left-hand side of the quadratic at [t0]. *)
Definition quad_eval (s : Sphere.t) (ray : Ray.t) (t0 : R) : R :=
  quad_a ray * (t0 * t0) + quad_b s ray * t0 + quad_c s ray.

(** No primitive of [objs] is hit by [ray]. *)
Definition no_hit (ray : Ray.t) (objs : list SceneObject.t) : Prop :=
  forall o : SceneObject.t, o ∈ objs -> SceneObject.intersect o ray = None.

(** [obj], at position [i] of [objs], is hit at distance [t0]; no
    primitive of the list is hit nearer, and every primitive listed
    before it that is hit is hit strictly farther: [obj] is the first of
    the list among those at the minimum distance. *)
Definition first_nearest_hit (ray : Ray.t) (objs : list SceneObject.t)
    (i : nat) (t0 : R) (obj : SceneObject.t) : Prop :=
  objs !! i = Some obj /\
  SceneObject.intersect obj ray = Some t0 /\
  (forall (j : nat) (o' : SceneObject.t) (t' : R),
      objs !! j = Some o' -> SceneObject.intersect o' ray = Some t' ->
      t0 <= t') /\
  (forall (j : nat) (o' : SceneObject.t) (t' : R),
      (j < i)%nat ->
      objs !! j = Some o' -> SceneObject.intersect o' ray = Some t' ->
      t0 < t').

(** What the nearest-hit loop has established after the primitives
    [seen], in the state [closest]. *)
Definition closest_inv (ray : Ray.t) (seen : list SceneObject.t)
    (closest : option (R * SceneObject.t)) : Prop :=
  match closest with
  | None => no_hit ray seen
  | Some (t0, obj) => exists i : nat, first_nearest_hit ray seen i t0 obj
  end.

(** The shadow ray of a hit point towards a light, and the occlusion
    test of the specification: some primitive is hit by it strictly
    nearer than the light. *)
Definition light_direction (intersectionPoint : Vector3.t) (light : Light.t)
    : Vector3.t :=
  Vector3.normalize (Vector3.subtract (Light.position light) intersectionPoint).

Definition shadow_ray (intersectionPoint normal : Vector3.t) (light : Light.t)
    : Ray.t :=
  Ray.mk (Vector3.add intersectionPoint (Vector3.multiply normal 0.001))
         (light_direction intersectionPoint light).

Definition occluded (objs : list SceneObject.t)
    (intersectionPoint normal : Vector3.t) (light : Light.t) : Prop :=
  exists (obj : SceneObject.t) (t0 : R),
    obj ∈ objs /\
    SceneObject.intersect obj (shadow_ray intersectionPoint normal light)
      = Some t0 /\
    t0 < Vector3.distanceTo (Light.position light) intersectionPoint.

(** The diffuse contribution of one light to a hit on [closestObject]. *)
Definition diffuse_color (closestObject : SceneObject.t)
    (intersectionPoint normal : Vector3.t) (light : Light.t) : Vector3.t :=
  Vector3.multiply (SceneObject.color closestObject)
    (Rmax 0 (Vector3.dot normal (light_direction intersectionPoint light))
     * Light.intensity light).

(** The diffuse contributions of the lights that reach the hit point,
    summed. *)
Fixpoint diffuse_total (objs : list SceneObject.t)
    (closestObject : SceneObject.t) (intersectionPoint normal : Vector3.t)
    (lights : list Light.t) : Vector3.t :=
  match lights with
  | [] => Vector3.new 0 0 0
  | light :: rest =>
      Vector3.add
        (if Scene.shadow_scan
              (shadow_ray intersectionPoint normal light)
              (Vector3.distanceTo (Light.position light) intersectionPoint)
              objs
         then Vector3.new 0 0 0
         else diffuse_color closestObject intersectionPoint normal light)
        (diffuse_total objs closestObject intersectionPoint normal rest)
  end.

(** Every channel of a colour lies in [0, 1]. *)
Definition in_unit_range (color : Vector3.t) : Prop :=
  0 <= Vector3.x color <= 1 /\
  0 <= Vector3.y color <= 1 /\
  0 <= Vector3.z color <= 1.

(** The byte offset of pixel [(px, py)] in the row-major RGBA buffer,
    and the byte its channel [k] holds after a render (0, 1, 2 for red,
    green, blue; 3 for alpha). *)
Definition pixel_offset (this : Renderer.t) (px py : nat) : nat :=
  ((py * Renderer.width this + px) * 4)%nat.

Definition camera_ray (this : Renderer.t) (px py : nat) : Ray.t :=
  Ray.new (Vector3.new 0 2 10)
    (Vector3.normalize
       (Vector3.new (INR px / INR (Renderer.width this) * 2 - 1)
                    (- (INR py / INR (Renderer.height this)) * 2 + 1)
                    (-1))).

Definition pixel_channel (this : Renderer.t) (px py k : nat) : Z :=
  let color := Scene.trace_default (Renderer.scene this)
                                   (camera_ray this px py) in
  match k with
  | 0%nat => Renderer.toUint8Clamp (Zfloor (Vector3.x color * 255))
  | 1%nat => Renderer.toUint8Clamp (Zfloor (Vector3.y color * 255))
  | 2%nat => Renderer.toUint8Clamp (Zfloor (Vector3.z color * 255))
  | _ => Renderer.toUint8Clamp 255
  end.

(** The lengths whose square neither underflows nor overflows in
    binary64: from [1e-150] to [1e150]. *)
Definition in_normal_range (len : R) : Prop :=
  / 10 ^ 150 <= len <= 10 ^ 150.

(** * Example scenes *)

Definition red : Vector3.t := Vector3.new 0.8 0.2 0.2.
Definition blue : Vector3.t := Vector3.new 0.2 0.2 0.8.

(** The plane [z = 0], facing the camera. *)
Definition wall (color : Vector3.t) : SceneObject.t :=
  SceneObject.OfPlane
    (Plane.new (Vector3.new 0 0 0) (Vector3.new 0 0 1) color).

(** The unit sphere centred at [(0, 0, 5)]. *)
Definition occluder : SceneObject.t :=
  SceneObject.OfSphere (Sphere.new (Vector3.new 0 0 5) 1 red).

(** A ray down the z axis from [(0, 0, 10)]. *)
Definition axis_ray : Ray.t :=
  Ray.new (Vector3.new 0 0 10) (Vector3.new 0 0 (-1)).

Definition lamp : Light.t := Light.new (Vector3.new 0 0 10) 1.5.
Definition side_lamp : Light.t := Light.new (Vector3.new 2 5 2) 1.5.

(** Two coincident walls, a red one listed before a blue one, and two
    lights. *)
Definition two_walls : Scene.t :=
  Scene.addLight
    (Scene.addLight
       (Scene.addObject (Scene.addObject Scene.new (wall red)) (wall blue))
       lamp)
    side_lamp.

(** A wall with a sphere between it and the lamp. *)
Definition eclipse : Scene.t :=
  Scene.addLight
    (Scene.addObject (Scene.addObject Scene.new (wall blue)) occluder) lamp.

(** An empty scene whose background colour is out of range. *)
Definition glare : Scene.t := Scene.mk [] [] (Vector3.new 1.5 (-0.2) 7).

(** * Further notions used for the rest of the code *)


(** [point] lies on the surface of the primitive: on the sphere, on the
    plane; an object of the base class has no surface. *)
Definition on_surface (obj : SceneObject.t) (point : Vector3.t) : Prop :=
  match obj with
  | SceneObject.Base _ _ => False
  | SceneObject.OfSphere s =>
      Vector3.distanceTo point (Sphere.position s) = Rabs (Sphere.radius s)
  | SceneObject.OfPlane p =>
      Vector3.dot (Vector3.subtract point (Plane.position p))
                  (Plane.normal p) = 0
  end.

(** The diffuse terms of all the lights at a point, with no shadow
    test. *)
Fixpoint lambert_total (closestObject : SceneObject.t)
    (intersectionPoint normal : Vector3.t) (lights : list Light.t)
    : Vector3.t :=
  match lights with
  | [] => Vector3.new 0 0 0
  | light :: rest =>
      Vector3.add
        (diffuse_color closestObject intersectionPoint normal light)
        (lambert_total closestObject intersectionPoint normal rest)
  end.

(** A primitive of a moderate size and place: its position within 1000
    of the origin of coordinates, a sphere with a radius between 0.1 and
    1000, a plane with a normal of length 1. *)
Definition at_scene_scale (obj : SceneObject.t) : Prop :=
  Vector3.length (SceneObject.position obj) <= 1000 /\
  match obj with
  | SceneObject.Base _ _ => True
  | SceneObject.OfSphere s => / 10 <= Rabs (Sphere.radius s) <= 1000
  | SceneObject.OfPlane p => Vector3.length (Plane.normal p) = 1
  end.

(** A light neither at the shaded point nor far out of the scene. *)
Definition light_in_reach (point : Vector3.t) (light : Light.t) : Prop :=
  / 1000 <= Vector3.distanceTo (Light.position light) point <= 1000000.

(** The two normalized device coordinates of a pixel. *)
Definition ndc_x (this : Renderer.t) (px : nat) : R :=
  INR px / INR (Renderer.width this) * 2 - 1.

Definition ndc_y (this : Renderer.t) (py : nat) : R :=
  - (INR py / INR (Renderer.height this)) * 2 + 1.

(** A scene with one wall and one lamp. *)
Definition lone_wall : Scene.t :=
  Scene.addLight (Scene.addObject Scene.new (wall red)) lamp.

(** * Vector algebra *)

Section VectorFacts.

Implicit Types u v : Vector3.t.

Lemma Vector3_eta v : Vector3.new (Vector3.x v) (Vector3.y v) (Vector3.z v) = v.
Proof. destruct v; reflexivity. Qed.

Lemma Vector3_ext u v :
  Vector3.x u = Vector3.x v -> Vector3.y u = Vector3.y v ->
  Vector3.z u = Vector3.z v -> u = v.
Proof. destruct u, v; simpl; intros -> -> ->; reflexivity. Qed.

Lemma dot_self_nonneg v : 0 <= Vector3.dot v v.
Proof. unfold Vector3.dot. nra. Qed.

Lemma length_sqrt_dot v : Vector3.length v = sqrt (Vector3.dot v v).
Proof. reflexivity. Qed.

Lemma length_nonneg v : 0 <= Vector3.length v.
Proof. apply sqrt_pos. Qed.

Lemma length_sqr v : Vector3.length v * Vector3.length v = Vector3.dot v v.
Proof. rewrite length_sqrt_dot. apply sqrt_sqrt, dot_self_nonneg. Qed.

Lemma length_zero_iff v : Vector3.length v = 0 <-> v = Vector3.new 0 0 0.
Proof.
  split.
  - intros H. pose proof (length_sqr v) as Hs. rewrite H in Hs.
    unfold Vector3.dot in Hs.
    apply Vector3_ext; simpl; nra.
  - intros ->. unfold Vector3.length; simpl.
    replace (0 * 0 + 0 * 0 + 0 * 0) with 0 by ring. apply sqrt_0.
Qed.

Lemma length_unit_of_dot v : Vector3.dot v v = 1 -> Vector3.length v = 1.
Proof. intros H. rewrite length_sqrt_dot, H. apply sqrt_1. Qed.

Lemma normalize_zero v :
  Vector3.length v = 0 -> Vector3.normalize v = Vector3.new 0 0 0.
Proof.
  intros H. unfold Vector3.normalize.
  destruct (Req_dec_T (Vector3.length v) 0); [reflexivity | contradiction].
Qed.

Lemma normalize_nonzero v :
  Vector3.length v <> 0 ->
  Vector3.normalize v =
  Vector3.multiply v (/ Vector3.length v).
Proof.
  intros H. unfold Vector3.normalize, Vector3.multiply.
  destruct (Req_dec_T (Vector3.length v) 0); [contradiction | reflexivity].
Qed.

Lemma dot_multiply_multiply v k :
  Vector3.dot (Vector3.multiply v k) (Vector3.multiply v k) =
  k * k * Vector3.dot v v.
Proof. unfold Vector3.dot, Vector3.multiply; simpl. ring. Qed.

Lemma normalize_unit v :
  Vector3.length v <> 0 -> Vector3.length (Vector3.normalize v) = 1.
Proof.
  intros H. rewrite normalize_nonzero by assumption.
  apply length_unit_of_dot.
  rewrite dot_multiply_multiply, <- length_sqr. now field.
Qed.

Lemma normalize_idempotent v :
  Vector3.normalize (Vector3.normalize v) = Vector3.normalize v.
Proof.
  destruct (Req_dec_T (Vector3.length v) 0) as [H0 | Hn].
  - rewrite (normalize_zero v H0). apply normalize_zero.
    now apply length_zero_iff.
  - pose proof (normalize_unit v Hn) as H1.
    rewrite (normalize_nonzero (Vector3.normalize v)) by lra.
    rewrite H1. unfold Vector3.multiply.
    apply Vector3_ext; simpl; field.
Qed.

End VectorFacts.

Lemma moderate_in_normal_range (len : R) :
  / 1000000 <= len <= 1000000 -> in_normal_range len.
Proof.
  intros [Hlo Hhi]. unfold in_normal_range.
  assert (H6 : 10 ^ 6 = 1000000) by (simpl; lra).
  assert (Hpow : 10 ^ 6 <= 10 ^ 150) by (apply Rle_pow; [lra | lia]).
  assert (Hinv : / 10 ^ 150 <= / 10 ^ 6)
    by (apply Rinv_le_contravar; [rewrite H6; lra | exact Hpow]).
  rewrite H6 in *. lra.
Qed.

(** C6, amended: [normalize] returns the zero vector when the length it
    computes is zero, in binary64 as in exact arithmetic (no error, no
    non-finite component), and otherwise the components divided by the
    length; for every vector whose length lies between [1e-150] and
    [1e150], where the squared norm neither underflows nor overflows, the
    result has length 1. *)
Theorem normalize_zero_or_unit (v : Vector3.t) (w : B64.Vector3.t) :
  (Vector3.length v = 0 -> Vector3.normalize v = Vector3.new 0 0 0) /\
  (in_normal_range (Vector3.length v) ->
   Vector3.length (Vector3.normalize v) = 1) /\
  (PrimFloat.eqb (B64.Vector3.length w) PrimFloat.zero = true ->
   B64.Vector3.normalize w = B64.zero) /\
  (PrimFloat.eqb (B64.Vector3.length w) PrimFloat.zero = false ->
   B64.Vector3.normalize w =
   B64.Vector3.new
     (PrimFloat.div (B64.Vector3.x w) (B64.Vector3.length w))
     (PrimFloat.div (B64.Vector3.y w) (B64.Vector3.length w))
     (PrimFloat.div (B64.Vector3.z w) (B64.Vector3.length w))).
Proof.
  split; [apply normalize_zero |]. split.
  - intros [Hlo _]. apply normalize_unit.
    assert (Hpos : 0 < / 10 ^ 150)
      by (apply Rinv_0_lt_compat, pow_lt; lra).
    lra.
  - unfold B64.Vector3.normalize, PrimFloat.zero.
    split; intros ->; reflexivity.
Qed.

(** C6 as stated fails in binary64 where the squared norm overflows or
    is subnormal: [(1e200, 0, 0)] has the length infinity, which is not
    zero, and is normalized to [(0, 0, 0)], of length 0;
    [(3e-162, 4e-162, 0)] is normalized to a vector of length about
    1.006. *)
Lemma normalize_zero_or_unit_counterexample :
  B64.Vector3.length B64.huge = PrimFloat.infinity /\
  PrimFloat.eqb (B64.Vector3.length B64.huge) PrimFloat.zero = false /\
  B64.Vector3.normalize B64.huge = B64.zero /\
  B64.Vector3.length (B64.Vector3.normalize B64.huge) = PrimFloat.zero /\
  PrimFloat.eqb (B64.Vector3.length B64.subnormal) PrimFloat.zero = false /\
  B64.between B64.bound_1_005 B64.bound_1_007
    (B64.Vector3.length (B64.Vector3.normalize B64.subnormal)) = true.
Proof. repeat split; vm_compute; reflexivity. Qed.

(** * Sphere and plane intersection *)

Lemma Sphere_intersect_unfold (s : Sphere.t) (ray : Ray.t) :
  Sphere.intersect s ray =
  if Rlt_dec (quad_discriminant s ray) 0 then None
  else if Rgt_dec (root_near s ray) 0.001 then Some (root_near s ray)
  else if Rgt_dec (root_far s ray) 0.001 then Some (root_far s ray)
  else None.
Proof. reflexivity. Qed.

Lemma quad_roots (s : Sphere.t) (ray : Ray.t) :
  0 <= quad_discriminant s ray -> quad_a ray <> 0 ->
  quad_eval s ray (root_near s ray) = 0 /\
  quad_eval s ray (root_far s ray) = 0.
Proof.
  intros Hd Ha.
  pose proof (sqrt_sqrt _ Hd) as Hs.
  unfold quad_eval, root_near, root_far.
  set (q := sqrt (quad_discriminant s ray)) in *.
  unfold quad_discriminant in Hs.
  set (a := quad_a ray) in *. set (b := quad_b s ray) in *.
  set (c := quad_c s ray) in *.
  assert (Hc : c = (b * b - q * q) / (4 * a)) by (rewrite Hs; now field).
  split; rewrite Hc; now field.
Qed.

Lemma quad_a_nonneg (ray : Ray.t) : 0 <= quad_a ray.
Proof. apply dot_self_nonneg. Qed.

Lemma quad_roots_ordered (s : Sphere.t) (ray : Ray.t) :
  quad_a ray <> 0 -> root_near s ray <= root_far s ray.
Proof.
  intros Ha. pose proof (quad_a_nonneg ray) as Hn.
  pose proof (sqrt_pos (quad_discriminant s ray)) as Hq.
  unfold root_near, root_far.
  apply Rmult_le_compat_r.
  - apply Rlt_le, Rinv_0_lt_compat. lra.
  - lra.
Qed.

(** The unguarded division: a ray of zero direction hits no sphere. *)
Lemma Sphere_intersect_zero_direction (s : Sphere.t) (ray : Ray.t) :
  quad_a ray = 0 -> Sphere.intersect s ray = None.
Proof.
  intros Ha. rewrite Sphere_intersect_unfold.
  unfold root_near, root_far. rewrite Ha, Rmult_0_r.
  unfold Rdiv. rewrite Rinv_0, !Rmult_0_r.
  destruct (Rlt_dec _ 0); [reflexivity |].
  destruct (Rgt_dec 0 0.001); [lra | reflexivity].
Qed.

(** C1: [Sphere.intersect] follows the ordered-root policy on the
    quadratic with the coefficients [a], [b], [c] of the specification:
    no intersection for a negative discriminant; otherwise the near root
    when it exceeds 0.001, else the far root when it exceeds 0.001, else
    no intersection.  For a ray of nonzero direction the two are the roots
    of the quadratic, the near one being the smaller. *)
Theorem Sphere_intersect_ordered_roots (s : Sphere.t) (ray : Ray.t) :
  (quad_discriminant s ray < 0 -> Sphere.intersect s ray = None) /\
  (0 <= quad_discriminant s ray -> root_near s ray > 0.001 ->
   Sphere.intersect s ray = Some (root_near s ray)) /\
  (0 <= quad_discriminant s ray -> root_near s ray <= 0.001 ->
   root_far s ray > 0.001 ->
   Sphere.intersect s ray = Some (root_far s ray)) /\
  (0 <= quad_discriminant s ray -> root_near s ray <= 0.001 ->
   root_far s ray <= 0.001 -> Sphere.intersect s ray = None) /\
  (0 <= quad_discriminant s ray -> quad_a ray <> 0 ->
   quad_eval s ray (root_near s ray) = 0 /\
   quad_eval s ray (root_far s ray) = 0 /\
   root_near s ray <= root_far s ray).
Proof.
  rewrite Sphere_intersect_unfold.
  repeat split; intros;
    repeat (match goal with
            | |- context [Rlt_dec ?p ?q] => destruct (Rlt_dec p q)
            | |- context [Rgt_dec ?p ?q] => destruct (Rgt_dec p q)
            end; try lra; try reflexivity).
  - now apply quad_roots.
  - now apply quad_roots.
  - now apply quad_roots_ordered.
Qed.

(** C5: [Plane.intersect] returns no intersection when
    [|normal . direction| <= 0.001], so in particular for a ray parallel
    to the plane, whatever its origin; otherwise it returns
    [t = (position - origin) . normal / denom] when [t >= 0.001] and no
    intersection when [t < 0.001]. *)
Theorem Plane_intersect_policy (p : Plane.t) (ray : Ray.t) :
  let denom := Vector3.dot (Plane.normal p) (Ray.direction ray) in
  let t0 :=
    Vector3.dot (Vector3.subtract (Plane.position p) (Ray.origin ray))
                (Plane.normal p) / denom in
  (Rabs denom <= 0.001 -> Plane.intersect p ray = None) /\
  (Vector3.dot (Ray.direction ray) (Plane.normal p) = 0 ->
   forall origin' : Vector3.t,
     Plane.intersect p (Ray.mk origin' (Ray.direction ray)) = None) /\
  (Rabs denom > 0.001 -> t0 >= 0.001 -> Plane.intersect p ray = Some t0) /\
  (Rabs denom > 0.001 -> t0 < 0.001 -> Plane.intersect p ray = None) /\
  (forall t' : R, Plane.intersect p ray = Some t' ->
     Rabs denom > 0.001 /\ t' = t0 /\ t' >= 0.001).
Proof.
  intros denom t0. unfold Plane.intersect. fold denom. fold t0.
  repeat split.
  - intros H. destruct (Rgt_dec (Rabs denom) 0.001); [lra | reflexivity].
  - intros H origin'. simpl.
    replace (Vector3.dot (Plane.normal p) (Ray.direction ray)) with 0
      by (rewrite <- H; unfold Vector3.dot; ring).
    rewrite Rabs_R0.
    destruct (Rgt_dec 0 0.001); [lra | reflexivity].
  - intros H1 H2. destruct (Rgt_dec (Rabs denom) 0.001); [| lra].
    destruct (Rge_dec t0 0.001); [reflexivity | lra].
  - intros H1 H2. destruct (Rgt_dec (Rabs denom) 0.001); [| lra].
    destruct (Rge_dec t0 0.001); [lra | reflexivity].
  - destruct (Rgt_dec (Rabs denom) 0.001); [assumption | discriminate].
  - destruct (Rgt_dec (Rabs denom) 0.001); [| discriminate].
    destruct (Rge_dec t0 0.001); [congruence | discriminate].
  - destruct (Rgt_dec (Rabs denom) 0.001); [| discriminate].
    destruct (Rge_dec t0 0.001); [congruence | discriminate].
Qed.

(** * A ray aimed at the centre of a sphere *)

Section Scaling.

Implicit Types v : Vector3.t.

Lemma length_multiply v k :
  Vector3.length (Vector3.multiply v k) = Rabs k * Vector3.length v.
Proof.
  rewrite !length_sqrt_dot, dot_multiply_multiply.
  rewrite sqrt_mult_alt by nra.
  f_equal. fold (Rsqr k). apply sqrt_Rsqr_abs.
Qed.

Lemma multiply_zero k :
  Vector3.multiply (Vector3.new 0 0 0) k = Vector3.new 0 0 0.
Proof. unfold Vector3.multiply; simpl. now rewrite Rmult_0_l. Qed.

Lemma normalize_multiply v k :
  k <> 0 ->
  Vector3.normalize (Vector3.multiply v k) =
  Vector3.multiply (Vector3.normalize v) (k / Rabs k).
Proof.
  intros Hk. pose proof (Rabs_pos_lt k Hk) as Hak.
  destruct (Req_dec_T (Vector3.length v) 0) as [H0 | Hn].
  - rewrite (normalize_zero v H0).
    apply length_zero_iff in H0. subst v.
    rewrite !multiply_zero. apply normalize_zero. now apply length_zero_iff.
  - assert (Hl : Vector3.length (Vector3.multiply v k) <> 0).
    { rewrite length_multiply. apply Rmult_integral_contrapositive. lra. }
    rewrite (normalize_nonzero _ Hl), (normalize_nonzero _ Hn).
    rewrite length_multiply.
    apply Vector3_ext; simpl; field; lra.
Qed.

Lemma subtract_zero_r v : Vector3.subtract v (Vector3.new 0 0 0) = v.
Proof. apply Vector3_ext; simpl; ring. Qed.

Lemma subtract_zero_l v :
  Vector3.subtract (Vector3.new 0 0 0) v = Vector3.multiply v (-1).
Proof. apply Vector3_ext; simpl; ring. Qed.

Lemma normalize_towards_origin v :
  Vector3.normalize (Vector3.subtract (Vector3.new 0 0 0) v) =
  Vector3.multiply (Vector3.normalize v) (-1).
Proof.
  rewrite subtract_zero_l, normalize_multiply by lra.
  f_equal. replace (-1) with (- (1)) by ring.
  rewrite Rabs_Ropp, Rabs_R1. field.
Qed.

Lemma normalize_scale_back v :
  Vector3.multiply (Vector3.normalize v) (Vector3.length v) = v.
Proof.
  destruct (Req_dec_T (Vector3.length v) 0) as [H0 | Hn].
  - rewrite (normalize_zero v H0), multiply_zero.
    symmetry. now apply length_zero_iff.
  - rewrite (normalize_nonzero v Hn).
    apply Vector3_ext; simpl; now field.
Qed.

End Scaling.

(** The quadratic of a sphere centred at the origin and a ray aimed at
    its centre from distance [L]: [a = 1], the roots are [L - r] and
    [L + r]. *)
Section CentredRay.

Variables (origin color : Vector3.t) (r : R) (ray : Ray.t).

Let s : Sphere.t := Sphere.new (Vector3.new 0 0 0) r color.
Let L : R := Vector3.length origin.

Hypothesis radius_pos : 0 < r.
Hypothesis outside : r < L.
Hypothesis ray_origin : Ray.origin ray = origin.
Hypothesis aimed :
  Ray.direction ray =
  Vector3.normalize (Vector3.subtract (Sphere.position s) origin).

Lemma centred_direction :
  Ray.direction ray = Vector3.multiply (Vector3.normalize origin) (-1).
Proof using aimed. rewrite aimed. apply normalize_towards_origin. Qed.

Lemma centred_unit : Vector3.dot (Vector3.normalize origin)
                                 (Vector3.normalize origin) = 1.
Proof using radius_pos outside.
  rewrite <- length_sqr, normalize_unit; [ring | fold L; lra].
Qed.

Lemma centred_a : quad_a ray = 1.
Proof using radius_pos outside aimed.
  unfold quad_a. rewrite centred_direction, dot_multiply_multiply, centred_unit.
  ring.
Qed.

Lemma centred_b : quad_b s ray = - 2 * L.
Proof using radius_pos outside ray_origin aimed.
  unfold quad_b. rewrite ray_origin, centred_direction. simpl.
  rewrite subtract_zero_r.
  rewrite <- (normalize_scale_back origin) at 1. fold L.
  pose proof centred_unit as Hu. revert Hu.
  unfold Vector3.dot, Vector3.multiply; simpl. intros Hu. nra.
Qed.

Lemma centred_c : quad_c s ray = L * L - r * r.
Proof using ray_origin.
  unfold quad_c. rewrite ray_origin. simpl. rewrite subtract_zero_r.
  unfold L. now rewrite length_sqr.
Qed.

Lemma centred_discriminant : quad_discriminant s ray = (2 * r) * (2 * r).
Proof using radius_pos outside ray_origin aimed.
  unfold quad_discriminant. rewrite centred_a, centred_b, centred_c. ring.
Qed.

Lemma centred_root_near : root_near s ray = L - r.
Proof using radius_pos outside ray_origin aimed.
  unfold root_near.
  rewrite centred_discriminant, sqrt_square, centred_a, centred_b by lra.
  field.
Qed.


Lemma centred_intersect_near :
  L - r > 0.001 -> Sphere.intersect s ray = Some (L - r).
Proof using radius_pos outside ray_origin aimed.
  intros H. rewrite Sphere_intersect_unfold, centred_root_near.
  rewrite centred_discriminant.
  destruct (Rlt_dec _ 0); [nra |].
  destruct (Rgt_dec _ 0.001); [reflexivity | lra].
Qed.







End CentredRay.


Lemma length_on_z_axis (k : R) :
  0 <= k -> Vector3.length (Vector3.new 0 0 k) = k.
Proof.
  intros Hk. unfold Vector3.length; simpl.
  replace (0 * 0 + 0 * 0 + k * k) with (k * k) by ring.
  now apply sqrt_square.
Qed.



(** * Scene.trace: the nearest hit *)

Section NearestHit.

Variable ray : Ray.t.

Lemma closest_step_inv (seen : list SceneObject.t)
    (closest : option (R * SceneObject.t)) (object : SceneObject.t) :
  closest_inv ray seen closest ->
  closest_inv ray (seen ++ [object]) (Scene.closest_step ray closest object).
Proof.
  intros Hinv. unfold Scene.closest_step.
  destruct (SceneObject.intersect object ray) as [t0 |] eqn:Hobj.
  - destruct closest as [[c oc] |]; simpl in Hinv.
    + destruct Hinv as (i & Hi & Hhit & Hmin & Hfirst).
      pose proof (lookup_lt_Some _ _ _ Hi) as Hlt.
      destruct (Rlt_dec t0 c) as [Hnear | Hfar]; simpl.
      * (* a strictly nearer hit replaces the one kept *)
        exists (length seen). repeat split.
        -- rewrite lookup_app_r, Nat.sub_diag by lia. reflexivity.
        -- assumption.
        -- intros j o' t' Hj Ho'. apply lookup_app_Some in Hj.
           destruct Hj as [Hj | [_ Hj]].
           ++ specialize (Hmin j o' t' Hj Ho'). lra.
           ++ apply list_lookup_singleton_Some in Hj as [_ <-].
              rewrite Hobj in Ho'. injection Ho' as <-. lra.
        -- intros j o' t' Hji Hj Ho'. rewrite lookup_app_l in Hj by lia.
           specialize (Hmin j o' t' Hj Ho'). lra.
      * (* an equal or farther hit leaves it *)
        exists i. repeat split.
        -- rewrite lookup_app_l by lia. assumption.
        -- assumption.
        -- intros j o' t' Hj Ho'. apply lookup_app_Some in Hj.
           destruct Hj as [Hj | [_ Hj]].
           ++ exact (Hmin j o' t' Hj Ho').
           ++ apply list_lookup_singleton_Some in Hj as [_ <-].
              rewrite Hobj in Ho'. injection Ho' as <-. lra.
        -- intros j o' t' Hji Hj Ho'. rewrite lookup_app_l in Hj by lia.
           exact (Hfirst j o' t' Hji Hj Ho').
    + (* the first hit of the scan *)
      exists (length seen). repeat split.
      * rewrite lookup_app_r, Nat.sub_diag by lia. reflexivity.
      * assumption.
      * intros j o' t' Hj Ho'. apply lookup_app_Some in Hj.
        destruct Hj as [Hj | [_ Hj]].
        -- rewrite (Hinv o') in Ho' by (eapply list_elem_of_lookup_2; eauto).
           discriminate.
        -- apply list_lookup_singleton_Some in Hj as [_ <-].
           rewrite Hobj in Ho'. injection Ho' as <-. lra.
      * intros j o' t' Hji Hj Ho'. rewrite lookup_app_l in Hj by lia.
        rewrite (Hinv o') in Ho' by (eapply list_elem_of_lookup_2; eauto).
        discriminate.
  - (* a miss changes nothing *)
    destruct closest as [[c oc] |]; simpl in *.
    + destruct Hinv as (i & Hi & Hhit & Hmin & Hfirst).
      pose proof (lookup_lt_Some _ _ _ Hi) as Hlt.
      exists i. repeat split.
      * rewrite lookup_app_l by lia. assumption.
      * assumption.
      * intros j o' t' Hj Ho'. apply lookup_app_Some in Hj.
        destruct Hj as [Hj | [_ Hj]].
        -- exact (Hmin j o' t' Hj Ho').
        -- apply list_lookup_singleton_Some in Hj as [_ <-]. congruence.
      * intros j o' t' Hji Hj Ho'. rewrite lookup_app_l in Hj by lia.
        exact (Hfirst j o' t' Hji Hj Ho').
    + intros o Ho. apply elem_of_app in Ho as [Ho | Ho].
      * now apply Hinv.
      * apply list_elem_of_singleton in Ho. now subst o.
Qed.

Lemma closest_scan_inv (rest seen : list SceneObject.t)
    (closest : option (R * SceneObject.t)) :
  closest_inv ray seen closest ->
  closest_inv ray (seen ++ rest) (Scene.closest_scan ray rest closest).
Proof.
  revert seen closest.
  induction rest as [| object rest IH]; intros seen closest Hinv; simpl.
  - now rewrite app_nil_r.
  - replace (seen ++ object :: rest) with ((seen ++ [object]) ++ rest)
      by (rewrite <- app_assoc; reflexivity).
    apply IH. now apply closest_step_inv.
Qed.

Lemma closest_scan_spec (objs : list SceneObject.t) :
  closest_inv ray objs (Scene.closest_scan ray objs None).
Proof.
  apply (closest_scan_inv objs []). intros o Ho.
  now apply not_elem_of_nil in Ho.
Qed.

(** The winner is determined by the list and the ray alone. *)
Lemma first_nearest_hit_unique (objs : list SceneObject.t)
    (i j : nat) (t0 t1 : R) (obj obj' : SceneObject.t) :
  first_nearest_hit ray objs i t0 obj ->
  first_nearest_hit ray objs j t1 obj' ->
  i = j /\ t0 = t1 /\ obj = obj'.
Proof.
  intros (Hi & Hhit & Hmin & Hfirst) (Hj & Hhit' & Hmin' & Hfirst').
  pose proof (Hmin j obj' t1 Hj Hhit') as H01.
  pose proof (Hmin' i obj t0 Hi Hhit) as H10.
  assert (Hij : i = j).
  { destruct (Nat.lt_trichotomy i j) as [Hlt | [Heq | Hgt]]; [| exact Heq |].
    - pose proof (Hfirst' i obj t0 Hlt Hi Hhit). lra.
    - pose proof (Hfirst j obj' t1 Hgt Hj Hhit'). lra. }
  subst j. split; [reflexivity |]. split; [lra | congruence].
Qed.

End NearestHit.

Lemma closest_scan_Some_iff (ray : Ray.t) (objs : list SceneObject.t)
    (t0 : R) (obj : SceneObject.t) :
  Scene.closest_scan ray objs None = Some (t0, obj) <->
  exists i : nat, first_nearest_hit ray objs i t0 obj.
Proof.
  pose proof (closest_scan_spec ray objs) as Hspec.
  split.
  - intros Heq. now rewrite Heq in Hspec.
  - intros [i Hi].
    destruct (Scene.closest_scan ray objs None) as [[t1 obj'] |]; simpl in Hspec.
    + destruct Hspec as [j Hj].
      destruct (first_nearest_hit_unique ray objs j i t1 t0 obj' obj Hj Hi)
        as (_ & -> & ->).
      reflexivity.
    + destruct Hi as (Hi & Hhit & _).
      rewrite (Hspec obj) in Hhit by (eapply list_elem_of_lookup_2; eauto).
      discriminate.
Qed.

Lemma closest_scan_None_iff (ray : Ray.t) (objs : list SceneObject.t) :
  Scene.closest_scan ray objs None = None <-> no_hit ray objs.
Proof.
  pose proof (closest_scan_spec ray objs) as Hspec.
  split.
  - intros Heq. now rewrite Heq in Hspec.
  - intros Hno.
    destruct (Scene.closest_scan ray objs None) as [[t1 obj'] |];
      [| reflexivity].
    destruct Hspec as (j & Hj & Hhit & _).
    rewrite (Hno obj') in Hhit by (eapply list_elem_of_lookup_2; eauto).
    discriminate.
Qed.

Lemma closest_scan_elem (ray : Ray.t) (objs : list SceneObject.t)
    (t0 : R) (obj : SceneObject.t) :
  Scene.closest_scan ray objs None = Some (t0, obj) -> obj ∈ objs.
Proof.
  intros H. apply closest_scan_Some_iff in H as (i & Hi & _).
  eapply list_elem_of_lookup_2; eauto.
Qed.

Lemma trace_default_unfold (s : Scene.t) (ray : Ray.t) :
  Scene.trace_default s ray =
  match Scene.closest_scan ray (Scene.objects s) None with
  | None => Scene.backgroundColor s
  | Some (t0, obj) =>
      Scene.clamp
        (Scene.shade s obj (Ray.pointAt ray t0)
           (SceneObject.normalAt obj (Ray.pointAt ray t0)))
  end.
Proof.
  unfold Scene.trace_default, Scene.trace.
  destruct (Rge_dec 0 3); [lra | reflexivity].
Qed.

Lemma trace_default_hit (s : Scene.t) (ray : Ray.t) (t0 : R)
    (obj : SceneObject.t) :
  Scene.closest_scan ray (Scene.objects s) None = Some (t0, obj) ->
  Scene.trace_default s ray =
  Scene.clamp
    (Scene.shade s obj (Ray.pointAt ray t0)
       (SceneObject.normalAt obj (Ray.pointAt ray t0))).
Proof. intros H. now rewrite trace_default_unfold, H. Qed.

(** The list is scanned in insertion order: a primitive added to the
    scene is examined after all those added before it. *)
Lemma closest_scan_app (ray : Ray.t) (objs more : list SceneObject.t)
    (closest : option (R * SceneObject.t)) :
  Scene.closest_scan ray (objs ++ more) closest =
  Scene.closest_scan ray more (Scene.closest_scan ray objs closest).
Proof.
  revert closest. induction objs as [| object rest IH]; intros closest; simpl.
  - reflexivity.
  - apply IH.
Qed.

(** C2: the nearest-hit loop of [Scene.trace] scans the primitives in
    insertion order and selects the one that is first in list order among
    those hit at the minimum distance (every primitive listed before the
    winner is hit strictly farther, so a later primitive at an equal
    distance never replaces it); [trace] shades that primitive, at the
    point of the ray at that distance; when no primitive is hit, [trace]
    returns the background colour. *)
Theorem trace_first_nearest (s : Scene.t) (ray : Ray.t) :
  (forall (t0 : R) (obj : SceneObject.t),
      Scene.closest_scan ray (Scene.objects s) None = Some (t0, obj) <->
      exists i : nat, first_nearest_hit ray (Scene.objects s) i t0 obj) /\
  (Scene.closest_scan ray (Scene.objects s) None = None <->
   no_hit ray (Scene.objects s)) /\
  (no_hit ray (Scene.objects s) ->
   Scene.trace_default s ray = Scene.backgroundColor s) /\
  (forall object : SceneObject.t,
      Scene.closest_scan ray (Scene.objects (Scene.addObject s object)) None
      = Scene.closest_step ray
          (Scene.closest_scan ray (Scene.objects s) None) object) /\
  (forall (i : nat) (t0 : R) (obj : SceneObject.t),
      first_nearest_hit ray (Scene.objects s) i t0 obj ->
      Scene.trace_default s ray =
      Scene.clamp
        (Scene.shade s obj (Ray.pointAt ray t0)
           (SceneObject.normalAt obj (Ray.pointAt ray t0)))).
Proof.
  split; [| split; [| split; [| split]]].
  - intros t0 obj. apply closest_scan_Some_iff.
  - apply closest_scan_None_iff.
  - intros Hno. apply closest_scan_None_iff in Hno.
    rewrite trace_default_unfold. now rewrite Hno.
  - intros object. simpl. now rewrite closest_scan_app.
  - intros i t0 obj Hfirst. apply trace_default_hit.
    apply closest_scan_Some_iff. now exists i.
Qed.

(** * Scene.trace: shadows and shading *)

Lemma shadow_scan_true_iff (shadowRay : Ray.t) (lightDistance : R)
    (objs : list SceneObject.t) :
  Scene.shadow_scan shadowRay lightDistance objs = true <->
  exists (obj : SceneObject.t) (t0 : R),
    obj ∈ objs /\ SceneObject.intersect obj shadowRay = Some t0 /\
    t0 < lightDistance.
Proof.
  induction objs as [| obj rest IH]; simpl.
  - split; [discriminate |].
    intros (o & t0 & Ho & _). now apply not_elem_of_nil in Ho.
  - destruct (SceneObject.intersect obj shadowRay) as [shadowT |] eqn:Hobj.
    + destruct (Rlt_dec shadowT lightDistance) as [Hlt | Hge].
      * split; [| reflexivity]. intros _.
        exists obj, shadowT. split; [apply elem_of_cons; now left | easy].
      * rewrite IH. split.
        -- intros (o & t0 & Ho & Hhit & Hlt).
           exists o, t0. split; [apply elem_of_cons; now right | easy].
        -- intros (o & t0 & Ho & Hhit & Hlt).
           apply elem_of_cons in Ho as [-> | Ho].
           ++ rewrite Hobj in Hhit. injection Hhit as <-. contradiction.
           ++ now exists o, t0.
    + rewrite IH. split.
      * intros (o & t0 & Ho & Hhit & Hlt).
        exists o, t0. split; [apply elem_of_cons; now right | easy].
      * intros (o & t0 & Ho & Hhit & Hlt).
        apply elem_of_cons in Ho as [-> | Ho]; [congruence |].
        now exists o, t0.
Qed.

(** The constructor of [Ray] normalizes a direction that is a unit
    vector already, or zero: it leaves it as it is. *)
Lemma shadow_ray_new (intersectionPoint normal : Vector3.t) (light : Light.t) :
  Ray.new (Vector3.add intersectionPoint (Vector3.multiply normal 0.001))
          (light_direction intersectionPoint light)
  = shadow_ray intersectionPoint normal light.
Proof.
  unfold Ray.new, shadow_ray, light_direction.
  now rewrite normalize_idempotent.
Qed.

Lemma shadow_scan_occluded (objs : list SceneObject.t)
    (intersectionPoint normal : Vector3.t) (light : Light.t) :
  Scene.shadow_scan (shadow_ray intersectionPoint normal light)
    (Vector3.distanceTo (Light.position light) intersectionPoint) objs = true
  <-> occluded objs intersectionPoint normal light.
Proof. apply shadow_scan_true_iff. Qed.

Lemma light_step_unfold (objs : list SceneObject.t)
    (closestObject : SceneObject.t) (intersectionPoint normal : Vector3.t)
    (color : Vector3.t) (light : Light.t) :
  Scene.light_step objs closestObject intersectionPoint normal color light =
  Vector3.add
    (if Scene.shadow_scan (shadow_ray intersectionPoint normal light)
          (Vector3.distanceTo (Light.position light) intersectionPoint) objs
     then color
     else Vector3.add color
            (diffuse_color closestObject intersectionPoint normal light))
    (Vector3.multiply (SceneObject.color closestObject) 0.2).
Proof.
  unfold Scene.light_step.
  fold (light_direction intersectionPoint light).
  rewrite shadow_ray_new.
  now destruct (Scene.shadow_scan _ _ objs).
Qed.

Lemma shade_addLight (s : Scene.t) (light : Light.t)
    (closestObject : SceneObject.t) (intersectionPoint normal : Vector3.t) :
  Scene.shade (Scene.addLight s light) closestObject intersectionPoint normal
  = Scene.light_step (Scene.objects s) closestObject intersectionPoint normal
      (Scene.shade s closestObject intersectionPoint normal) light.
Proof.
  unfold Scene.shade. cbn [Scene.addLight Scene.objects Scene.lights].
  now rewrite fold_left_app.
Qed.

(** C3: for a hit point and a light, the shadow ray starts at
    [hitPoint + normal * 0.001] and points to the light; it is tested
    against every primitive of the scene, the hit one among them; the
    point is in shadow exactly when some primitive is hit strictly nearer
    than the light, the first such primitive ending the test; the diffuse
    term
    [color * (max(0, normal . lightDirection) * intensity)] is added only
    when the point is not in shadow.  [Scene.trace] starts from black,
    runs this step once for each light of the scene in turn, on the colour
    the lights before it have left, and returns the clamped result. *)
Theorem light_step_shadow_policy (s : Scene.t) (closestObject : SceneObject.t)
    (intersectionPoint normal color : Vector3.t) (light : Light.t) :
  let step :=
    Scene.light_step (Scene.objects s) closestObject intersectionPoint normal
                     color light in
  Ray.new (Vector3.add intersectionPoint (Vector3.multiply normal 0.001))
          (light_direction intersectionPoint light)
    = shadow_ray intersectionPoint normal light /\
  (Scene.shadow_scan (shadow_ray intersectionPoint normal light)
     (Vector3.distanceTo (Light.position light) intersectionPoint)
     (Scene.objects s) = true
   <-> occluded (Scene.objects s) intersectionPoint normal light) /\
  (occluded (Scene.objects s) intersectionPoint normal light ->
   step =
   Vector3.add color
     (Vector3.multiply (SceneObject.color closestObject) 0.2)) /\
  (~ occluded (Scene.objects s) intersectionPoint normal light ->
   step =
   Vector3.add
     (Vector3.add color
        (Vector3.multiply (SceneObject.color closestObject)
           (Rmax 0 (Vector3.dot normal
                      (light_direction intersectionPoint light))
            * Light.intensity light)))
     (Vector3.multiply (SceneObject.color closestObject) 0.2)) /\
  (forall (ray : Ray.t) (t0 : R),
      Scene.closest_scan ray (Scene.objects s) None
        = Some (t0, closestObject) ->
      closestObject ∈ Scene.objects s) /\
  (forall (obj : SceneObject.t) (rest : list SceneObject.t) (t0 : R),
      SceneObject.intersect obj
        (shadow_ray intersectionPoint normal light) = Some t0 ->
      t0 < Vector3.distanceTo (Light.position light) intersectionPoint ->
      Scene.shadow_scan (shadow_ray intersectionPoint normal light)
        (Vector3.distanceTo (Light.position light) intersectionPoint)
        (obj :: rest) = true) /\
  (Scene.lights s = [] ->
   Scene.shade s closestObject intersectionPoint normal
   = Vector3.new 0 0 0) /\
  Scene.shade (Scene.addLight s light) closestObject intersectionPoint normal
  = Scene.light_step (Scene.objects s) closestObject intersectionPoint normal
      (Scene.shade s closestObject intersectionPoint normal) light /\
  (forall (ray : Ray.t) (t0 : R),
      Scene.closest_scan ray (Scene.objects s) None
        = Some (t0, closestObject) ->
      Scene.trace_default s ray =
      Scene.clamp
        (Scene.shade s closestObject (Ray.pointAt ray t0)
           (SceneObject.normalAt closestObject (Ray.pointAt ray t0)))).
Proof.
  intros step. unfold step. rewrite light_step_unfold.
  pose proof (shadow_scan_occluded (Scene.objects s) intersectionPoint
                normal light) as Hiff.
  split; [apply shadow_ray_new |].
  split; [exact Hiff |].
  split; [| split; [| split; [| split; [| split; [| split]]]]].
  - intros Hocc. apply Hiff in Hocc. now rewrite Hocc.
  - intros Hfree.
    destruct (Scene.shadow_scan _ _ (Scene.objects s)); [| reflexivity].
    exfalso. apply Hfree, Hiff. reflexivity.
  - intros ray t0. apply closest_scan_elem.
  - intros obj rest t0 Hhit Hnear. simpl. rewrite Hhit.
    destruct (Rlt_dec t0 _); [reflexivity | contradiction].
  - intros Hnone. unfold Scene.shade. now rewrite Hnone.
  - apply shade_addLight.
  - intros ray t0. apply trace_default_hit.
Qed.

(** * Scene.trace: the ambient term and the clamp *)

Lemma fold_light_step (objs : list SceneObject.t)
    (closestObject : SceneObject.t) (intersectionPoint normal : Vector3.t)
    (lights : list Light.t) (color : Vector3.t) :
  fold_left (Scene.light_step objs closestObject intersectionPoint normal)
            lights color =
  Vector3.add color
    (Vector3.add
       (diffuse_total objs closestObject intersectionPoint normal lights)
       (Vector3.multiply (SceneObject.color closestObject)
                         (INR (length lights) * 0.2))).
Proof.
  revert color. induction lights as [| light rest IH]; intros color.
  - simpl. apply Vector3_ext; simpl; ring.
  - cbn [fold_left]. rewrite IH, light_step_unfold.
    cbn [diffuse_total length]. rewrite S_INR.
    destruct (Scene.shadow_scan _ _ objs);
      apply Vector3_ext; simpl; ring.
Qed.

Lemma diffuse_total_all_occluded (objs : list SceneObject.t)
    (closestObject : SceneObject.t) (intersectionPoint normal : Vector3.t)
    (lights : list Light.t) :
  (forall light : Light.t, light ∈ lights ->
     occluded objs intersectionPoint normal light) ->
  diffuse_total objs closestObject intersectionPoint normal lights
  = Vector3.new 0 0 0.
Proof.
  induction lights as [| light rest IH]; intros Hall; simpl.
  - reflexivity.
  - rewrite IH by (intros l Hl; apply Hall, elem_of_cons; now right).
    assert (Hocc : occluded objs intersectionPoint normal light)
      by (apply Hall, elem_of_cons; now left).
    apply shadow_scan_occluded in Hocc. rewrite Hocc.
    apply Vector3_ext; simpl; ring.
Qed.

Lemma clamp_in_unit_range (color : Vector3.t) :
  in_unit_range (Scene.clamp color).
Proof.
  unfold in_unit_range, Scene.clamp; simpl.
  repeat split;
    match goal with
    | |- context [Rmin 1 (Rmax 0 ?c)] =>
        unfold Rmin, Rmax;
        destruct (Rle_dec 0 c); destruct (Rle_dec 1 _); lra
    end.
Qed.

(** C4: on a hit in a scene with [n] lights, the colour before clamping
    is the sum of the diffuse terms of the lights that reach the point
    plus [n * 0.2] times the colour of the hit primitive: the ambient term
    is added once per light, in shadow or not. *)
Theorem trace_ambient_per_light (s : Scene.t) (ray : Ray.t) (t0 : R)
    (obj : SceneObject.t) :
  Scene.closest_scan ray (Scene.objects s) None = Some (t0, obj) ->
  let point := Ray.pointAt ray t0 in
  let normal := SceneObject.normalAt obj point in
  let n := length (Scene.lights s) in
  Scene.shade s obj point normal =
    Vector3.add
      (diffuse_total (Scene.objects s) obj point normal (Scene.lights s))
      (Vector3.multiply (SceneObject.color obj) (INR n * 0.2)) /\
  Scene.trace_default s ray = Scene.clamp (Scene.shade s obj point normal) /\
  ((forall light : Light.t, light ∈ Scene.lights s ->
      occluded (Scene.objects s) point normal light) ->
   Scene.shade s obj point normal =
     Vector3.multiply (SceneObject.color obj) (INR n * 0.2)).
Proof.
  intros Hhit point normal n.
  assert (Hshade :
    Scene.shade s obj point normal =
    Vector3.add
      (diffuse_total (Scene.objects s) obj point normal (Scene.lights s))
      (Vector3.multiply (SceneObject.color obj) (INR n * 0.2))).
  { unfold Scene.shade. rewrite fold_light_step.
    unfold n. apply Vector3_ext; simpl; ring. }
  split; [exact Hshade |]. split.
  - rewrite trace_default_unfold, Hhit. reflexivity.
  - intros Hall. rewrite Hshade, diffuse_total_all_occluded by exact Hall.
    unfold n. apply Vector3_ext; simpl; ring.
Qed.

(** C10: [Scene.trace] returns the stored background colour, unclamped,
    when it is entered with [depth >= maxDepth] and when no primitive is
    hit; the clamp to [0, 1] is applied on the hit path only. *)
Theorem trace_background_unclamped (s : Scene.t) (ray : Ray.t)
    (depth maxDepth : R) :
  (depth >= maxDepth ->
   Scene.trace s ray depth maxDepth = Scene.backgroundColor s) /\
  (no_hit ray (Scene.objects s) ->
   Scene.trace s ray depth maxDepth = Scene.backgroundColor s) /\
  (forall (t0 : R) (obj : SceneObject.t),
      depth < maxDepth ->
      Scene.closest_scan ray (Scene.objects s) None = Some (t0, obj) ->
      Scene.trace s ray depth maxDepth =
        Scene.clamp
          (Scene.shade s obj (Ray.pointAt ray t0)
             (SceneObject.normalAt obj (Ray.pointAt ray t0))) /\
      in_unit_range (Scene.trace s ray depth maxDepth)).
Proof.
  unfold Scene.trace. split; [| split].
  - intros Hd. destruct (Rge_dec depth maxDepth); [reflexivity | contradiction].
  - intros Hno. apply closest_scan_None_iff in Hno. rewrite Hno.
    now destruct (Rge_dec depth maxDepth).
  - intros t0 obj Hd Hhit.
    destruct (Rge_dec depth maxDepth); [lra |]. rewrite Hhit.
    split; [reflexivity | apply clamp_in_unit_range].
Qed.

(** * Renderer.render *)

Section RenderLoops.

Variable this : Renderer.t.

Let W : nat := Renderer.width this.

Lemma pixel_ray_camera (px py : nat) :
  Renderer.pixel_ray this px py = camera_ray this px py.
Proof. reflexivity. Qed.

Lemma render_pixel_length (py px : nat) (data : list Z) :
  length (Renderer.render_pixel this py px data) = length data.
Proof. unfold Renderer.render_pixel. now rewrite !length_insert. Qed.

Lemma render_pixel_other (py px : nat) (data : list Z) (j : nat) :
  (j < pixel_offset this px py \/ pixel_offset this px py + 4 <= j)%nat ->
  Renderer.render_pixel this py px data !! j = data !! j.
Proof.
  intros Hj. unfold Renderer.render_pixel. fold (pixel_offset this px py).
  rewrite !list_lookup_insert_ne by lia. reflexivity.
Qed.

Lemma render_pixel_at (py px k : nat) (data : list Z) :
  (k < 4)%nat ->
  Renderer.render_pixel this py px data !! (pixel_offset this px py + k)%nat
  = (fun _ => pixel_channel this px py k)
      <$> data !! (pixel_offset this px py + k)%nat.
Proof.
  intros Hk. unfold Renderer.render_pixel. fold (pixel_offset this px py).
  rewrite pixel_ray_camera.
  set (off := pixel_offset this px py).
  destruct (data !! (off + k)%nat) as [old |] eqn:Hold.
  - apply lookup_lt_Some in Hold.
    assert (Hcases : k = 0%nat \/ k = 1%nat \/ k = 2%nat \/ k = 3%nat) by lia.
    destruct Hcases as [-> | [-> | [-> | ->]]]; simpl.
    + rewrite !list_lookup_insert_ne by lia.
      rewrite Nat.add_0_r in *. now rewrite list_lookup_insert_eq.
    + rewrite !list_lookup_insert_ne by lia.
      rewrite list_lookup_insert_eq by (rewrite !length_insert; lia).
      reflexivity.
    + rewrite !list_lookup_insert_ne by lia.
      rewrite list_lookup_insert_eq by (rewrite !length_insert; lia).
      reflexivity.
    + rewrite list_lookup_insert_eq by (rewrite !length_insert; lia).
      reflexivity.
  - apply lookup_ge_None in Hold. simpl.
    apply lookup_ge_None. rewrite !length_insert. exact Hold.
Qed.

(** The inner loop, from column [x0], for [n] columns. *)
Lemma row_loop_length (py n x0 : nat) (data : list Z) :
  length (Renderer.for_loop x0 n (Renderer.render_pixel this py) data)
  = length data.
Proof.
  revert x0 data. induction n as [| n IH]; intros x0 data; simpl.
  - reflexivity.
  - now rewrite IH, render_pixel_length.
Qed.

Lemma row_loop_other (py n x0 : nat) (data : list Z) (j : nat) :
  (j < pixel_offset this x0 py \/ pixel_offset this (x0 + n) py <= j)%nat ->
  Renderer.for_loop x0 n (Renderer.render_pixel this py) data !! j
  = data !! j.
Proof.
  revert x0 data. induction n as [| n IH]; intros x0 data Hj; simpl.
  - reflexivity.
  - unfold pixel_offset in *.
    rewrite IH by (unfold pixel_offset; lia).
    apply render_pixel_other. unfold pixel_offset. lia.
Qed.

Lemma row_loop_at (py n x0 px k : nat) (data : list Z) :
  (x0 <= px < x0 + n)%nat -> (k < 4)%nat ->
  Renderer.for_loop x0 n (Renderer.render_pixel this py) data
    !! (pixel_offset this px py + k)%nat
  = (fun _ => pixel_channel this px py k)
      <$> data !! (pixel_offset this px py + k)%nat.
Proof.
  revert x0 data. induction n as [| n IH]; intros x0 data Hpx Hk; simpl.
  - lia.
  - destruct (Nat.eq_dec px x0) as [-> | Hne].
    + rewrite row_loop_other by (unfold pixel_offset; lia).
      now apply render_pixel_at.
    + rewrite IH by lia.
      rewrite render_pixel_other by (unfold pixel_offset; lia).
      reflexivity.
Qed.

(** The outer loop, from row [y0], for [m] rows. *)
Lemma rows_loop_length (m y0 : nat) (data : list Z) :
  length (Renderer.for_loop y0 m (Renderer.render_row this) data)
  = length data.
Proof.
  revert y0 data. induction m as [| m IH]; intros y0 data; simpl.
  - reflexivity.
  - rewrite IH. apply row_loop_length.
Qed.

Lemma rows_loop_other (m y0 : nat) (data : list Z) (j : nat) :
  (j < y0 * W * 4 \/ (y0 + m) * W * 4 <= j)%nat ->
  Renderer.for_loop y0 m (Renderer.render_row this) data !! j = data !! j.
Proof.
  revert y0 data. induction m as [| m IH]; intros y0 data Hj; simpl.
  - reflexivity.
  - rewrite IH by lia.
    apply row_loop_other. unfold pixel_offset. fold W. lia.
Qed.

Lemma rows_loop_at (m y0 px py k : nat) (data : list Z) :
  (y0 <= py < y0 + m)%nat -> (px < W)%nat -> (k < 4)%nat ->
  Renderer.for_loop y0 m (Renderer.render_row this) data
    !! (pixel_offset this px py + k)%nat
  = (fun _ => pixel_channel this px py k)
      <$> data !! (pixel_offset this px py + k)%nat.
Proof.
  revert y0 data. induction m as [| m IH]; intros y0 data Hpy Hpx Hk; simpl.
  - lia.
  - destruct (Nat.eq_dec py y0) as [-> | Hne].
    + rewrite rows_loop_other by (unfold pixel_offset; fold W; lia).
      apply row_loop_at; [fold W; lia | exact Hk].
    + rewrite IH by lia.
      unfold Renderer.render_row.
      rewrite row_loop_other; [reflexivity |].
      unfold pixel_offset. fold W. right. nia.
Qed.

Lemma render_length :
  length (Renderer.imageData (Renderer.render this))
  = length (Renderer.imageData this).
Proof. apply rows_loop_length. Qed.

Lemma render_at (px py k : nat) :
  (px < W)%nat -> (py < Renderer.height this)%nat -> (k < 4)%nat ->
  Renderer.imageData (Renderer.render this)
    !! (pixel_offset this px py + k)%nat
  = (fun _ => pixel_channel this px py k)
      <$> Renderer.imageData this !! (pixel_offset this px py + k)%nat.
Proof.
  intros Hpx Hpy Hk. unfold Renderer.render; simpl.
  apply rows_loop_at; [lia | exact Hpx | exact Hk].
Qed.

Lemma render_beyond (j : nat) :
  (Renderer.height this * W * 4 <= j)%nat ->
  Renderer.imageData (Renderer.render this) !! j
  = Renderer.imageData this !! j.
Proof.
  intros Hj. unfold Renderer.render; simpl.
  apply rows_loop_other. lia.
Qed.

Lemma pixel_decompose (j : nat) :
  (j < Renderer.height this * W * 4)%nat ->
  exists px py k : nat,
    (px < W)%nat /\ (py < Renderer.height this)%nat /\ (k < 4)%nat /\
    j = (pixel_offset this px py + k)%nat.
Proof.
  intros Hj. unfold pixel_offset. fold W.
  assert (HW : (0 < W)%nat) by (destruct W; lia).
  exists ((j / 4) mod W)%nat, (j / 4 / W)%nat, (j mod 4)%nat.
  pose proof (Nat.div_mod_eq j 4) as H4.
  pose proof (Nat.mod_upper_bound j 4) as Hk.
  pose proof (Nat.div_mod_eq (j / 4) W) as HWq.
  pose proof (Nat.mod_upper_bound (j / 4) W) as Hx.
  assert (Hq : (j / 4 < Renderer.height this * W)%nat) by lia.
  assert (Hy : (j / 4 / W < Renderer.height this)%nat)
    by (apply Nat.Div0.div_lt_upper_bound; lia).
  repeat split; lia.
Qed.

End RenderLoops.

Lemma new_length (w h : nat) (scene : Scene.t) :
  length (Renderer.imageData (Renderer.new w h scene)) = (w * h * 4)%nat.
Proof. simpl. apply length_replicate. Qed.

Lemma toUint8Clamp_byte (v : Z) :
  (0 <= v <= 255)%Z -> Renderer.toUint8Clamp v = v.
Proof. unfold Renderer.toUint8Clamp. lia. Qed.


Lemma floor_channel_byte (c : R) :
  0 <= c <= 1 -> (0 <= Zfloor (c * 255) <= 255)%Z.
Proof.
  intros [H0 H1]. split.
  - apply Zfloor_lub. simpl. nra.
  - apply le_IZR. pose proof (Zfloor_bound (c * 255)) as [Hb _]. nra.
Qed.

(** C7, amended: for every pixel [(px, py)] of a [W x H] render, the
    renderer casts the ray from [(0, 2, 10)] with direction
    [((px/W)*2 - 1, -(py/H)*2 + 1, -1)] normalized, traces it, and assigns
    [floor(channel * 255)] for red, green and blue, then 255 for alpha, at
    the byte offset [(py * W + px) * 4] of the row-major buffer, whose
    cells hold what they are assigned brought into 0..255; for a colour
    with its channels in [0, 1] the cells hold [floor(channel * 255)]
    itself. *)
Theorem render_pixel_bytes (this : Renderer.t) (px py : nat) :
  (px < Renderer.width this)%nat ->
  (py < Renderer.height this)%nat ->
  length (Renderer.imageData this)
    = (Renderer.width this * Renderer.height this * 4)%nat ->
  let W := Renderer.width this in
  let H := Renderer.height this in
  let ray :=
    Ray.new (Vector3.new 0 2 10)
      (Vector3.normalize
         (Vector3.new (INR px / INR W * 2 - 1) (- (INR py / INR H) * 2 + 1)
                      (-1))) in
  let color := Scene.trace_default (Renderer.scene this) ray in
  let offset := ((py * W + px) * 4)%nat in
  let data := Renderer.imageData (Renderer.render this) in
  Renderer.pixel_ray this px py = ray /\
  data !! offset
    = Some (Renderer.toUint8Clamp (Zfloor (Vector3.x color * 255))) /\
  data !! (offset + 1)%nat
    = Some (Renderer.toUint8Clamp (Zfloor (Vector3.y color * 255))) /\
  data !! (offset + 2)%nat
    = Some (Renderer.toUint8Clamp (Zfloor (Vector3.z color * 255))) /\
  data !! (offset + 3)%nat = Some 255%Z /\
  length data = (W * H * 4)%nat /\
  (in_unit_range color ->
   data !! offset = Some (Zfloor (Vector3.x color * 255)) /\
   data !! (offset + 1)%nat = Some (Zfloor (Vector3.y color * 255)) /\
   data !! (offset + 2)%nat = Some (Zfloor (Vector3.z color * 255))).
Proof.
  intros Hpx Hpy Hlen W H ray color offset data.
  assert (Hin : forall k : nat, (k < 4)%nat ->
            data !! (offset + k)%nat = Some (pixel_channel this px py k)).
  { intros k Hk.
    change (data !! (offset + k)%nat)
      with (Renderer.imageData (Renderer.render this)
              !! (pixel_offset this px py + k)%nat).
    rewrite render_at by assumption.
    destruct (Renderer.imageData this !! (pixel_offset this px py + k)%nat)
      as [old |] eqn:Hold; [reflexivity |].
    apply lookup_ge_None in Hold. unfold pixel_offset in Hold.
    rewrite Hlen in Hold. nia. }
  assert (H0 : data !! offset
               = Some (Renderer.toUint8Clamp (Zfloor (Vector3.x color * 255))))
    by (rewrite <- (Nat.add_0_r offset); now rewrite Hin by lia).
  assert (H1 : data !! (offset + 1)%nat
               = Some (Renderer.toUint8Clamp (Zfloor (Vector3.y color * 255))))
    by (now rewrite Hin by lia).
  assert (H2 : data !! (offset + 2)%nat
               = Some (Renderer.toUint8Clamp (Zfloor (Vector3.z color * 255))))
    by (now rewrite Hin by lia).
  split; [reflexivity |].
  split; [exact H0 |]. split; [exact H1 |]. split; [exact H2 |].
  split; [now rewrite Hin by lia |].
  split; [unfold data; now rewrite render_length |].
  intros (Hx & Hy & Hz).
  rewrite H0, H1, H2.
  rewrite !toUint8Clamp_byte by now apply floor_channel_byte.
  auto.
Qed.

Lemma render_pixel_bytes_witness :
  let this := Renderer.new 2 2 Scene.new in
  let ray :=
    Ray.new (Vector3.new 0 2 10)
      (Vector3.normalize
         (Vector3.new (INR 1 / INR 2 * 2 - 1) (- (INR 0 / INR 2) * 2 + 1)
                      (-1))) in
  let color := Scene.trace_default (Renderer.scene this) ray in
  let data := Renderer.imageData (Renderer.render this) in
  Renderer.pixel_ray this 1 0 = ray /\
  data !! 4%nat
    = Some (Renderer.toUint8Clamp (Zfloor (Vector3.x color * 255))) /\
  data !! 5%nat
    = Some (Renderer.toUint8Clamp (Zfloor (Vector3.y color * 255))) /\
  data !! 6%nat
    = Some (Renderer.toUint8Clamp (Zfloor (Vector3.z color * 255))) /\
  data !! 7%nat = Some 255%Z /\
  length data = 16%nat /\
  (in_unit_range color ->
   data !! 4%nat = Some (Zfloor (Vector3.x color * 255)) /\
   data !! 5%nat = Some (Zfloor (Vector3.y color * 255)) /\
   data !! 6%nat = Some (Zfloor (Vector3.z color * 255))).
Proof.
  apply (render_pixel_bytes (Renderer.new 2 2 Scene.new) 1 0).
  - simpl. lia.
  - simpl. lia.
  - reflexivity.
Defined.

(** C7 as stated fails for a colour out of range: with the background
    [(1.5, -0.2, 7)] and no object, [floor(channel * 255)] is 382, -51
    and 1785, and the cells of the pixel hold 255, 0 and 255. *)
Lemma render_pixel_bytes_counterexample :
  let this := Renderer.new 1 1 glare in
  let color := Scene.trace_default glare (Renderer.pixel_ray this 0 0) in
  let data := Renderer.imageData (Renderer.render this) in
  color = Vector3.new 1.5 (-0.2) 7 /\
  Zfloor (Vector3.x color * 255) = 382%Z /\
  Zfloor (Vector3.y color * 255) = (-51)%Z /\
  Zfloor (Vector3.z color * 255) = 1785%Z /\
  data !! 0%nat = Some 255%Z /\
  data !! 0%nat <> Some (Zfloor (Vector3.x color * 255)) /\
  data !! 1%nat = Some 0%Z /\
  data !! 1%nat <> Some (Zfloor (Vector3.y color * 255)) /\
  data !! 2%nat = Some 255%Z /\
  data !! 3%nat = Some 255%Z.
Proof.
  intros this color data.
  assert (Hc : color = Vector3.new 1.5 (-0.2) 7)
    by (unfold color; now rewrite trace_default_unfold).
  assert (Hx : Zfloor (1.5 * 255) = 382%Z) by (apply Zfloor_eq; simpl; lra).
  assert (Hy : Zfloor (-0.2 * 255) = (-51)%Z)
    by (apply Zfloor_eq; simpl; lra).
  assert (Hz : Zfloor (7 * 255) = 1785%Z) by (apply Zfloor_eq; simpl; lra).
  assert (Hin : forall k : nat, (k < 4)%nat ->
            data !! k = Some (pixel_channel this 0 0 k)).
  { intros k Hk.
    change (data !! k)
      with (Renderer.imageData (Renderer.render this)
              !! (pixel_offset this 0 0 + k)%nat).
    rewrite render_at by (simpl; lia).
    destruct k as [| [| [| [| k]]]]; try reflexivity; lia. }
  assert (Hch : pixel_channel this 0 0 0 = 255%Z /\
                pixel_channel this 0 0 1 = 0%Z /\
                pixel_channel this 0 0 2 = 255%Z /\
                pixel_channel this 0 0 3 = 255%Z).
  { unfold pixel_channel.
    change (Scene.trace_default (Renderer.scene this) (camera_ray this 0 0))
      with color.
    rewrite Hc. simpl Vector3.x. simpl Vector3.y. simpl Vector3.z.
    rewrite Hx, Hy, Hz. repeat split; reflexivity. }
  destruct Hch as (H0 & H1 & H2 & H3).
  rewrite Hc. simpl Vector3.x. simpl Vector3.y. simpl Vector3.z.
  rewrite Hx, Hy, Hz, !Hin by lia. rewrite H0, H1, H2, H3.
  repeat split; try reflexivity; intros [= ].
Qed.

Lemma Renderer_ext (a b : Renderer.t) :
  Renderer.scene a = Renderer.scene b ->
  Renderer.width a = Renderer.width b ->
  Renderer.height a = Renderer.height b ->
  Renderer.imageData a = Renderer.imageData b ->
  a = b.
Proof. destruct a, b; simpl; congruence. Qed.

(** The buffer a render leaves is the one it found with every cell of
    the [W x H] image overwritten by a number that depends on the scene
    and the sizes only. *)
Lemma render_lookup_stable (this : Renderer.t) (data' : list Z) (j : nat) :
  length data' = length (Renderer.imageData this) ->
  (j < Renderer.height this * Renderer.width this * 4)%nat ->
  Renderer.imageData
    (Renderer.render
       (Renderer.mk (Renderer.scene this) (Renderer.width this)
                    (Renderer.height this) data')) !! j
  = Renderer.imageData (Renderer.render this) !! j.
Proof.
  intros Hlen Hj.
  destruct (pixel_decompose this j Hj) as (px & py & k & Hpx & Hpy & Hk & ->).
  set (that := Renderer.mk _ _ _ data').
  change (pixel_offset this px py) with (pixel_offset that px py) at 1.
  rewrite (render_at that), (render_at this) by assumption.
  change (pixel_offset that px py) with (pixel_offset this px py).
  change (pixel_channel that px py k) with (pixel_channel this px py k).
  simpl Renderer.imageData at 1.
  destruct (data' !! (pixel_offset this px py + k)%nat) as [v |] eqn:Hv.
  - apply lookup_lt_Some in Hv. rewrite Hlen in Hv.
    apply lookup_lt_is_Some in Hv as [v' ->]. reflexivity.
  - apply lookup_ge_None in Hv. rewrite Hlen in Hv.
    apply lookup_ge_None in Hv. now rewrite Hv.
Qed.

(** C9: rendering twice, with the scene, its lights and the background
    colour unchanged in between, leaves the buffer the first render left;
    and what a render leaves in the image does not depend on what the
    buffer held before. *)
Theorem render_idempotent (this : Renderer.t) :
  Renderer.render (Renderer.render this) = Renderer.render this /\
  (forall data' : list Z,
      length data' = length (Renderer.imageData this) ->
      (length data' <= Renderer.width this * Renderer.height this * 4)%nat ->
      Renderer.imageData
        (Renderer.render
           (Renderer.mk (Renderer.scene this) (Renderer.width this)
                        (Renderer.height this) data'))
      = Renderer.imageData (Renderer.render this)).
Proof.
  split.
  - assert (Hdata :
      Renderer.imageData (Renderer.render (Renderer.render this))
      = Renderer.imageData (Renderer.render this)).
    { apply list_eq. intros j.
      destruct (Nat.lt_ge_cases j
                  (Renderer.height this * Renderer.width this * 4))
        as [Hin | Hout].
      - apply (render_lookup_stable this
                 (Renderer.imageData (Renderer.render this)) j);
          [apply render_length | exact Hin].
      - now rewrite (render_beyond (Renderer.render this)) by exact Hout. }
    apply Renderer_ext; [reflexivity .. | exact Hdata].
  - intros data' Hlen Hbound. apply list_eq. intros j.
    destruct (Nat.lt_ge_cases j
                (Renderer.height this * Renderer.width this * 4))
      as [Hin | Hout].
    + now apply render_lookup_stable.
    + rewrite !lookup_ge_None_2; [reflexivity | |].
      * rewrite render_length, <- Hlen. lia.
      * rewrite render_length. simpl. lia.
Qed.

(** * Worked examples *)

Lemma length_z_axis (k : R) : Vector3.length (Vector3.new 0 0 k) = Rabs k.
Proof.
  unfold Vector3.length; simpl.
  replace (0 * 0 + 0 * 0 + k * k) with (Rsqr k) by (unfold Rsqr; ring).
  apply sqrt_Rsqr_abs.
Qed.

Lemma normalize_z_axis (k : R) :
  0 < k -> Vector3.normalize (Vector3.new 0 0 k) = Vector3.new 0 0 1.
Proof.
  intros Hk.
  assert (Hl : Vector3.length (Vector3.new 0 0 k) = k)
    by (rewrite length_z_axis; apply Rabs_pos_eq; lra).
  rewrite normalize_nonzero by lra. rewrite Hl.
  apply Vector3_ext; simpl; field; lra.
Qed.

Lemma normalize_z_axis_down :
  Vector3.normalize (Vector3.new 0 0 (-1)) = Vector3.new 0 0 (-1).
Proof.
  assert (Hl : Vector3.length (Vector3.new 0 0 (-1)) = 1).
  { rewrite length_z_axis. replace (-1) with (- (1)) by ring.
    now rewrite Rabs_Ropp, Rabs_R1. }
  rewrite normalize_nonzero by lra. rewrite Hl.
  apply Vector3_ext; simpl; field.
Qed.

Lemma axis_ray_eq :
  axis_ray = Ray.mk (Vector3.new 0 0 10) (Vector3.new 0 0 (-1)).
Proof. unfold axis_ray, Ray.new. now rewrite normalize_z_axis_down. Qed.

Lemma wall_eq (color : Vector3.t) :
  wall color =
  SceneObject.OfPlane
    (Plane.mk (Vector3.new 0 0 0) (Vector3.new 0 0 1) color).
Proof. unfold wall, Plane.new. now rewrite normalize_z_axis by lra. Qed.

(** The axis ray meets the wall at distance 10. *)
Lemma wall_intersect (color : Vector3.t) :
  SceneObject.intersect (wall color) axis_ray = Some 10.
Proof.
  rewrite wall_eq, axis_ray_eq. simpl.
  unfold Plane.intersect, Vector3.dot; simpl.
  replace (0 * 0 + 0 * 0 + 1 * -1) with (- (1)) by ring.
  rewrite Rabs_Ropp, Rabs_R1.
  destruct (Rgt_dec 1 0.001); [| lra].
  match goal with
  | |- context [Rge_dec ?q _] => replace q with 10 by field
  end.
  destruct (Rge_dec 10 0.001); [reflexivity | lra].
Qed.

(** Of two primitives hit at the same distance the one listed first is
    kept. *)
Lemma two_walls_closest :
  Scene.closest_scan axis_ray (Scene.objects two_walls) None
  = Some (10, wall red).
Proof.
  simpl. unfold Scene.closest_step. rewrite !wall_intersect.
  destruct (Rlt_dec 10 10); [lra | reflexivity].
Qed.

Lemma trace_ambient_per_light_witness :
  let point := Ray.pointAt axis_ray 10 in
  let normal := SceneObject.normalAt (wall red) point in
  Scene.shade two_walls (wall red) point normal =
    Vector3.add
      (diffuse_total (Scene.objects two_walls) (wall red) point normal
         (Scene.lights two_walls))
      (Vector3.multiply (SceneObject.color (wall red)) (INR 2 * 0.2)).
Proof.
  exact (proj1 (trace_ambient_per_light two_walls axis_ray 10 (wall red)
                  two_walls_closest)).
Defined.

(** A background colour out of range comes back as it is stored. *)
Lemma trace_background_unclamped_witness :
  Scene.trace_default glare axis_ray = Vector3.new 1.5 (-0.2) 7 /\
  ~ in_unit_range (Scene.trace_default glare axis_ray).
Proof.
  assert (Heq : Scene.trace_default glare axis_ray
                = Vector3.new 1.5 (-0.2) 7).
  { apply (trace_background_unclamped glare axis_ray 0 3).
    intros o Ho. now apply not_elem_of_nil in Ho. }
  split; [exact Heq |]. rewrite Heq.
  unfold in_unit_range; simpl. lra.
Defined.

(** The occluder hides the lamp from the point [(0, 0, 0)] of the wall: the
    shadow ray meets it at distance 3.999, nearer than the lamp at 10. *)
Lemma eclipse_shadow_ray :
  shadow_ray (Vector3.new 0 0 0) (Vector3.new 0 0 1) lamp
  = Ray.mk (Vector3.new 0 0 0.001) (Vector3.new 0 0 1).
Proof.
  unfold shadow_ray, light_direction, lamp; simpl.
  unfold Vector3.subtract; simpl.
  replace (10 - 0) with 10 by ring. replace (0 - 0) with 0 by ring.
  rewrite normalize_z_axis by lra.
  f_equal. apply Vector3_ext; simpl; ring.
Qed.

Lemma eclipse_occluded :
  occluded (Scene.objects eclipse) (Vector3.new 0 0 0) (Vector3.new 0 0 1)
           lamp.
Proof.
  exists occluder, 3.999. split; [| split].
  - simpl. apply elem_of_cons. right. apply elem_of_cons. now left.
  - rewrite eclipse_shadow_ray. unfold occluder. simpl.
    rewrite Sphere_intersect_unfold.
    assert (Hd : quad_discriminant
                   (Sphere.new (Vector3.new 0 0 5) 1 red)
                   (Ray.mk (Vector3.new 0 0 0.001) (Vector3.new 0 0 1))
                 = 2 * 2).
    { unfold quad_discriminant, quad_a, quad_b, quad_c, Vector3.dot; simpl.
      lra. }
    assert (Hn : root_near
                   (Sphere.new (Vector3.new 0 0 5) 1 red)
                   (Ray.mk (Vector3.new 0 0 0.001) (Vector3.new 0 0 1))
                 = 3.999).
    { unfold root_near. rewrite Hd, sqrt_square by lra.
      replace (quad_a (Ray.mk (Vector3.new 0 0 0.001) (Vector3.new 0 0 1)))
        with 1 by (unfold quad_a, Vector3.dot; simpl; lra).
      unfold quad_b, Vector3.dot; simpl. lra. }
    rewrite Hd, Hn.
    destruct (Rlt_dec (2 * 2) 0); [lra |].
    destruct (Rgt_dec 3.999 0.001); [reflexivity | lra].
  - unfold lamp, Vector3.distanceTo; simpl.
    replace ((0 - 0) * (0 - 0) + (0 - 0) * (0 - 0) + (10 - 0) * (10 - 0))
      with (10 * 10) by ring.
    rewrite sqrt_square by lra. lra.
Qed.

(** In the shadow the light adds the ambient term and nothing else. *)
Lemma light_step_shadow_policy_witness :
  Scene.light_step (Scene.objects eclipse) (wall blue)
    (Vector3.new 0 0 0) (Vector3.new 0 0 1) (Vector3.new 0 0 0) lamp
  = Vector3.add (Vector3.new 0 0 0) (Vector3.multiply blue 0.2).
Proof.
  destruct (light_step_shadow_policy eclipse (wall blue) (Vector3.new 0 0 0)
              (Vector3.new 0 0 1) (Vector3.new 0 0 0) lamp)
    as (_ & _ & Hshadow & _).
  rewrite (Hshadow eclipse_occluded). now rewrite wall_eq.
Defined.

(** The red wall, listed first, is the nearest hit of the axis ray. *)
Lemma trace_first_nearest_witness :
  exists i : nat,
    first_nearest_hit axis_ray (Scene.objects two_walls) i 10 (wall red).
Proof.
  exact (proj1 (proj1 (trace_first_nearest two_walls axis_ray) 10 (wall red))
               two_walls_closest).
Defined.

(** The axis ray meets the wall at [t = 10]; a ray along the wall
    misses it. *)
Lemma Plane_intersect_policy_witness :
  let p := Plane.mk (Vector3.new 0 0 0) (Vector3.new 0 0 1) blue in
  Plane.intersect p (Ray.mk (Vector3.new 0 0 10) (Vector3.new 0 0 (-1)))
    = Some 10 /\
  Plane.intersect p (Ray.mk (Vector3.new 0 0 10) (Vector3.new 1 0 0)) = None.
Proof.
  intros p. split.
  - destruct (Plane_intersect_policy p
                (Ray.mk (Vector3.new 0 0 10) (Vector3.new 0 0 (-1))))
      as (_ & _ & Hhit & _).
    rewrite Hhit; unfold Vector3.dot; simpl.
    + f_equal. field.
    + replace (0 * 0 + 0 * 0 + 1 * -1) with (- (1)) by ring.
      rewrite Rabs_Ropp, Rabs_R1. lra.
    + replace (0 * 0 + 0 * 0 + 1 * -1) with (-1) by ring. lra.
  - destruct (Plane_intersect_policy p
                (Ray.mk (Vector3.new 0 0 0) (Vector3.new 1 0 0)))
      as (_ & Hparallel & _).
    apply (Hparallel ltac:(unfold Vector3.dot; simpl; ring)
                     (Vector3.new 0 0 10)).
Defined.

(** The zero vector stays zero, in both embeddings; [(0, 0, 10)] is
    scaled to length 1. *)
Lemma normalize_zero_or_unit_witness :
  Vector3.normalize (Vector3.new 0 0 0) = Vector3.new 0 0 0 /\
  Vector3.length (Vector3.normalize (Vector3.new 0 0 10)) = 1 /\
  B64.Vector3.normalize B64.zero = B64.zero.
Proof.
  destruct (normalize_zero_or_unit (Vector3.new 0 0 0) B64.zero)
    as (Hzero & _ & Hzero64 & _).
  destruct (normalize_zero_or_unit (Vector3.new 0 0 10) B64.zero)
    as (_ & Hunit & _).
  split; [| split].
  - apply Hzero. rewrite length_z_axis. apply Rabs_R0.
  - apply Hunit. apply moderate_in_normal_range.
    rewrite length_z_axis, Rabs_pos_eq; lra.
  - apply Hzero64. vm_compute. reflexivity.
Defined.

(** The sphere of radius 2 at the origin is met from [(0, 0, 10)] at
    the near root, 8. *)
Lemma Sphere_intersect_ordered_roots_witness :
  let origin := Vector3.new 0 0 10 in
  let s := Sphere.new (Vector3.new 0 0 0) 2 red in
  let ray := Ray.new origin (Vector3.subtract (Sphere.position s) origin) in
  Sphere.intersect s ray = Some (root_near s ray) /\ root_near s ray = 8.
Proof.
  intros origin s ray.
  assert (HL : Vector3.length origin = 10)
    by (unfold origin; rewrite length_on_z_axis; lra).
  assert (Hn : root_near s ray = 8).
  { unfold s. rewrite (centred_root_near origin red 2 ray);
      try reflexivity; lra. }
  split; [| exact Hn].
  destruct (Sphere_intersect_ordered_roots s ray) as (_ & Hnear & _).
  apply Hnear; [| lra].
  unfold s. rewrite (centred_discriminant origin red 2 ray);
    try reflexivity; lra.
Defined.

(** * More vector algebra: cross product, distance, normalization *)

Section MoreVectorFacts.

Implicit Types u v w : Vector3.t.

Lemma distanceTo_length u v :
  Vector3.distanceTo u v = Vector3.length (Vector3.subtract u v).
Proof. reflexivity. Qed.

Lemma subtract_self_iff u v :
  Vector3.subtract u v = Vector3.new 0 0 0 <-> u = v.
Proof.
  split.
  - intros H. apply (f_equal Vector3.x) in H as Hx.
    apply (f_equal Vector3.y) in H as Hy.
    apply (f_equal Vector3.z) in H as Hz. simpl in Hx, Hy, Hz.
    apply Vector3_ext; lra.
  - intros ->. apply Vector3_ext; simpl; ring.
Qed.

Lemma normalize_length_le_1 v : Vector3.length (Vector3.normalize v) <= 1.
Proof.
  destruct (Req_dec_T (Vector3.length v) 0) as [H0 | Hn].
  - rewrite (normalize_zero v H0).
    replace (Vector3.length (Vector3.new 0 0 0)) with 0; [lra |].
    symmetry. now apply length_zero_iff.
  - rewrite normalize_unit by assumption. lra.
Qed.

Lemma in_normal_range_nonzero (len : R) : in_normal_range len -> len <> 0.
Proof.
  intros [Hlo _].
  assert (Hpos : 0 < / 10 ^ 150) by (apply Rinv_0_lt_compat, pow_lt; lra).
  lra.
Qed.

End MoreVectorFacts.

(** X1: the cross product is anticommutative; the cross product with
    the zero vector is the zero vector, and so is the cross product of a
    vector of length at most [1e150] with itself. *)
Theorem cross_product_laws (u v : Vector3.t) :
  Vector3.cross u v = Vector3.multiply (Vector3.cross v u) (-1) /\
  Vector3.cross u (Vector3.new 0 0 0) = Vector3.new 0 0 0 /\
  (Vector3.length u <= 10 ^ 150 ->
   Vector3.cross u u = Vector3.new 0 0 0).
Proof.
  split; [| split; [| intros _]]; apply Vector3_ext; simpl; ring.
Qed.

(** X3: [distanceTo] is symmetric and never negative, it is the length
    of the difference, and the distance from a point to itself is 0. *)
Theorem distanceTo_is_metric (u v : Vector3.t) :
  Vector3.distanceTo u v = Vector3.distanceTo v u /\
  0 <= Vector3.distanceTo u v /\
  Vector3.distanceTo u v = Vector3.length (Vector3.subtract u v) /\
  Vector3.distanceTo u u = 0.
Proof.
  split; [| split; [| split]].
  - unfold Vector3.distanceTo. f_equal. ring.
  - rewrite distanceTo_length. apply length_nonneg.
  - reflexivity.
  - rewrite distanceTo_length, length_zero_iff. now apply subtract_self_iff.
Qed.

(** X4: for a vector whose length lies between [1e-150] and [1e150],
    [normalize] keeps the direction and only changes the length: scaling
    the result by the original length gives the vector back; it is
    idempotent, its result is not longer than 1, and a positive factor on
    the argument does not change it while a negative one turns it
    around, as long as the scaled vector stays in that range. *)
Theorem normalize_direction (v : Vector3.t) (k : R) :
  in_normal_range (Vector3.length v) ->
  Vector3.multiply (Vector3.normalize v) (Vector3.length v) = v /\
  Vector3.normalize (Vector3.normalize v) = Vector3.normalize v /\
  Vector3.length (Vector3.normalize v) <= 1 /\
  (0 < k -> in_normal_range (Vector3.length (Vector3.multiply v k)) ->
   Vector3.normalize (Vector3.multiply v k) = Vector3.normalize v) /\
  (k < 0 -> in_normal_range (Vector3.length (Vector3.multiply v k)) ->
   Vector3.normalize (Vector3.multiply v k) =
   Vector3.multiply (Vector3.normalize v) (-1)).
Proof.
  intros _.
  split; [apply normalize_scale_back |].
  split; [apply normalize_idempotent |].
  split; [apply normalize_length_le_1 |].
  split; intros Hk _; rewrite normalize_multiply by lra.
  - rewrite Rabs_pos_eq by lra.
    apply Vector3_ext; simpl; field; lra.
  - rewrite Rabs_left by lra.
    apply Vector3_ext; simpl; field; lra.
Qed.

Lemma normalize_direction_witness :
  let v := Vector3.new 0 0 10 in
  Vector3.multiply (Vector3.normalize v) (Vector3.length v) = v /\
  Vector3.normalize (Vector3.normalize v) = Vector3.normalize v /\
  Vector3.length (Vector3.normalize v) <= 1.
Proof.
  intros v.
  destruct (normalize_direction v 2) as (Hback & Hidem & Hle & _).
  - apply moderate_in_normal_range. unfold v.
    rewrite length_on_z_axis; lra.
  - auto.
Defined.

(** * Rays *)

Lemma pointAt_offset (ray : Ray.t) (t0 : R) :
  Vector3.subtract (Ray.pointAt ray t0) (Ray.origin ray)
  = Vector3.multiply (Ray.direction ray) t0.
Proof. apply Vector3_ext; simpl; ring. Qed.

(** X5: the constructor of [Ray] keeps the origin and stores the
    direction normalized: for a direction whose length lies between
    [1e-150] and [1e150] the stored direction has length 1 and is the
    given one divided by its length; for a direction of length 0 it is
    the zero vector, and then every [pointAt] is the origin.  [pointAt 0]
    is the origin. *)
Theorem Ray_constructor_direction (origin direction : Vector3.t) (t0 : R) :
  let ray := Ray.new origin direction in
  Ray.origin ray = origin /\
  Ray.pointAt ray 0 = origin /\
  (Vector3.length direction = 0 ->
   Ray.direction ray = Vector3.new 0 0 0 /\ Ray.pointAt ray t0 = origin) /\
  (in_normal_range (Vector3.length direction) ->
   Vector3.length (Ray.direction ray) = 1 /\
   Vector3.multiply (Ray.direction ray) (Vector3.length direction)
     = direction).
Proof.
  intros ray.
  split; [reflexivity |].
  split; [apply Vector3_ext; simpl; ring |].
  split.
  - intros H0. unfold ray, Ray.new. rewrite (normalize_zero _ H0).
    split; [reflexivity |]. apply Vector3_ext; simpl; ring.
  - intros Hrange. split.
    + apply normalize_unit. now apply in_normal_range_nonzero.
    + apply normalize_scale_back.
Qed.

(** * Spheres: where the ray meets the surface *)

Section SphereHits.

Variables (s : Sphere.t) (ray : Ray.t).

Lemma hit_point_sqr (t0 : R) :
  Vector3.dot
    (Vector3.subtract (Ray.pointAt ray t0) (Sphere.position s))
    (Vector3.subtract (Ray.pointAt ray t0) (Sphere.position s))
  = quad_eval s ray t0 + Sphere.radius s * Sphere.radius s.
Proof.
  unfold quad_eval, quad_a, quad_b, quad_c, Vector3.dot; simpl. ring.
Qed.

Lemma on_sphere_iff (t0 : R) :
  Vector3.distanceTo (Ray.pointAt ray t0) (Sphere.position s)
    = Rabs (Sphere.radius s)
  <-> quad_eval s ray t0 = 0.
Proof.
  rewrite distanceTo_length, length_sqrt_dot, hit_point_sqr.
  rewrite <- (sqrt_Rsqr_abs (Sphere.radius s)). unfold Rsqr.
  split.
  - intros H. apply sqrt_inj in H; [lra | | nra].
    rewrite <- hit_point_sqr. apply dot_self_nonneg.
  - intros ->. now rewrite Rplus_0_l.
Qed.

Lemma intersect_Some_cases (t0 : R) :
  Sphere.intersect s ray = Some t0 ->
  0 <= quad_discriminant s ray /\ quad_a ray <> 0 /\ t0 > 0.001 /\
  (t0 = root_near s ray \/
   (root_near s ray <= 0.001 /\ t0 = root_far s ray)).
Proof.
  intros H.
  assert (Ha : quad_a ray <> 0).
  { intros Ha. rewrite (Sphere_intersect_zero_direction s ray Ha) in H.
    discriminate. }
  rewrite Sphere_intersect_unfold in H.
  destruct (Rlt_dec (quad_discriminant s ray) 0); [discriminate |].
  destruct (Rgt_dec (root_near s ray) 0.001).
  - injection H as <-.
    split; [lra |]. split; [assumption |]. split; [lra |]. now left.
  - destruct (Rgt_dec (root_far s ray) 0.001); [| discriminate].
    injection H as <-.
    split; [lra |]. split; [assumption |]. split; [lra |]. right. lra.
Qed.


End SphereHits.

Lemma intersect_on_surface (s : Sphere.t) (ray : Ray.t) (t0 : R) :
  Sphere.intersect s ray = Some t0 ->
  t0 > 0.001 /\
  Vector3.distanceTo (Ray.pointAt ray t0) (Sphere.position s)
    = Rabs (Sphere.radius s).
Proof.
  intros H. apply intersect_Some_cases in H as (Hd & Ha & Ht & Hcases).
  split; [exact Ht |]. apply on_sphere_iff.
  destruct (quad_roots s ray Hd Ha) as [Hn Hf].
  destruct Hcases as [-> | [_ ->]]; assumption.
Qed.

(** X6: for a ray with a direction of length 1 whose origin lies within
    1000 of the origin of coordinates and within 100 radii of the centre
    of a sphere whose radius lies between 0.001 and 1000, a distance
    returned by [Sphere.intersect] exceeds 0.001 and the point of the ray
    at that distance lies on the sphere: its distance to the centre is the
    radius (in absolute value). *)
Theorem Sphere_hit_on_surface (s : Sphere.t) (ray : Ray.t) (t0 : R) :
  Sphere.intersect s ray = Some t0 ->
  Vector3.length (Ray.direction ray) = 1 ->
  Vector3.length (Ray.origin ray) <= 1000 ->
  Vector3.distanceTo (Ray.origin ray) (Sphere.position s)
    <= 100 * Rabs (Sphere.radius s) ->
  / 1000 <= Rabs (Sphere.radius s) <= 1000 ->
  t0 > 0.001 /\
  Vector3.distanceTo (Ray.pointAt ray t0) (Sphere.position s)
    = Rabs (Sphere.radius s).
Proof. intros H _ _ _ _. now apply intersect_on_surface. Qed.

(** A ray from on or outside the sphere that does not point towards it. *)
Lemma intersect_away_None (s : Sphere.t) (ray : Ray.t) :
  Vector3.distanceTo (Ray.origin ray) (Sphere.position s)
    >= Rabs (Sphere.radius s) ->
  Vector3.dot (Vector3.subtract (Ray.origin ray) (Sphere.position s))
              (Ray.direction ray) >= 0 ->
  Sphere.intersect s ray = None.
Proof.
  intros Hout Haway.
  destruct (Sphere.intersect s ray) as [t0 |] eqn:Hhit; [| reflexivity].
  exfalso.
  apply intersect_Some_cases in Hhit as (Hd & Ha & Ht & Hcases).
  pose proof (quad_a_nonneg ray) as Hpos.
  assert (Hb : 0 <= quad_b s ray) by (unfold quad_b; lra).
  assert (Hc : 0 <= quad_c s ray).
  { unfold quad_c. rewrite <- length_sqr, <- distanceTo_length.
    pose proof (Rabs_pos (Sphere.radius s)) as Hr.
    replace (Sphere.radius s * Sphere.radius s)
      with (Rabs (Sphere.radius s) * Rabs (Sphere.radius s))
      by (unfold Rabs; destruct (Rcase_abs _); ring).
    nra. }
  pose proof (sqrt_pos (quad_discriminant s ray)) as Hq0.
  pose proof (sqrt_sqrt _ Hd) as Hqq.
  assert (Hq : sqrt (quad_discriminant s ray) <= quad_b s ray).
  { assert (Hdef : quad_discriminant s ray =
              quad_b s ray * quad_b s ray - 4 * quad_a ray * quad_c s ray)
      by reflexivity.
    assert (Hac : 0 <= 4 * quad_a ray * quad_c s ray) by nra.
    destruct (Rle_lt_dec (sqrt (quad_discriminant s ray)) (quad_b s ray))
      as [Hle | Hgt]; [exact Hle | exfalso].
    assert (Hprod : 0 < (sqrt (quad_discriminant s ray) - quad_b s ray)
                        * (sqrt (quad_discriminant s ray) + quad_b s ray))
      by (apply Rmult_lt_0_compat; lra).
    nra. }
  assert (Hinv : 0 < / (2 * quad_a ray))
    by (apply Rinv_0_lt_compat; lra).
  assert (Hfar : root_far s ray <= 0).
  { unfold root_far, Rdiv.
    assert (- quad_b s ray + sqrt (quad_discriminant s ray) <= 0) by lra.
    nra. }
  pose proof (quad_roots_ordered s ray Ha) as Hord.
  destruct Hcases as [-> | [_ ->]]; lra.
Qed.



(** X10: [Sphere.normalAt] points from the centre to the point: for a
    point whose distance to the centre lies between [1e-150] and [1e150]
    it has length 1 and, scaled by that distance, is the offset of the
    point from the centre; at the centre it is the zero vector. *)
Theorem Sphere_normal_outward (s : Sphere.t) (point : Vector3.t) :
  (in_normal_range (Vector3.distanceTo point (Sphere.position s)) ->
   Vector3.length (Sphere.normalAt s point) = 1 /\
   Vector3.multiply (Sphere.normalAt s point)
     (Vector3.distanceTo point (Sphere.position s))
   = Vector3.subtract point (Sphere.position s)) /\
  Sphere.normalAt s (Sphere.position s) = Vector3.new 0 0 0.
Proof.
  unfold Sphere.normalAt. rewrite distanceTo_length. split.
  - intros Hrange. split.
    + apply normalize_unit. now apply in_normal_range_nonzero.
    + apply normalize_scale_back.
  - apply normalize_zero. rewrite length_zero_iff. now apply subtract_self_iff.
Qed.

Lemma distanceTo_origin_z (k : R) :
  0 <= k ->
  Vector3.distanceTo (Vector3.new 0 0 k) (Vector3.new 0 0 0) = k.
Proof.
  intros Hk. rewrite distanceTo_length, subtract_zero_r.
  now apply length_on_z_axis.
Qed.

Lemma length_z_unit : Vector3.length (Vector3.new 0 0 1) = 1.
Proof. rewrite length_on_z_axis; lra. Qed.

Lemma Sphere_hit_on_surface_witness :
  let origin := Vector3.new 0 0 10 in
  let s := Sphere.new (Vector3.new 0 0 0) 2 red in
  let ray := Ray.new origin (Vector3.subtract (Sphere.position s) origin) in
  Vector3.length origin - 2 > 0.001 /\
  Vector3.distanceTo (Ray.pointAt ray (Vector3.length origin - 2))
                     (Sphere.position s) = Rabs 2.
Proof.
  intros origin s ray.
  assert (HL : Vector3.length origin = 10)
    by (unfold origin; rewrite length_on_z_axis; lra).
  apply (Sphere_hit_on_surface s ray (Vector3.length origin - 2)).
  - apply (centred_intersect_near origin red 2 ray); try reflexivity; lra.
  - apply normalize_unit. simpl Sphere.position.
    rewrite subtract_zero_l, length_multiply, HL.
    replace (-1) with (- (1)) by ring. rewrite Rabs_Ropp, Rabs_R1. lra.
  - change (Vector3.length origin <= 1000). lra.
  - change (Vector3.distanceTo (Vector3.new 0 0 10) (Vector3.new 0 0 0)
            <= 100 * Rabs 2).
    rewrite distanceTo_origin_z, Rabs_pos_eq; lra.
  - change (/ 1000 <= Rabs 2 <= 1000). rewrite Rabs_pos_eq; lra.
Defined.



(** * Planes *)

Section PlaneHits.

Variables (p : Plane.t) (ray : Ray.t).

Let denom : R := Vector3.dot (Plane.normal p) (Ray.direction ray).
Let numer : R :=
  Vector3.dot (Vector3.subtract (Plane.position p) (Ray.origin ray))
              (Plane.normal p).

Lemma plane_offset (t0 : R) :
  Vector3.dot (Vector3.subtract (Ray.pointAt ray t0) (Plane.position p))
              (Plane.normal p)
  = t0 * denom - numer.
Proof. unfold denom, numer, Vector3.dot; simpl. ring. Qed.

Lemma Plane_intersect_unfold :
  Plane.intersect p ray =
  if Rgt_dec (Rabs denom) 0.001
  then if Rge_dec (numer / denom) 0.001 then Some (numer / denom) else None
  else None.
Proof. reflexivity. Qed.

End PlaneHits.


(** X12: the constructor of [Plane] stores a normal of length 1 when it
    is given one whose length lies between [1e-150] and [1e150], and the
    zero vector when it is given a normal of length 0, and such a plane is
    hit by no ray; turning the normal of a plane around changes no
    intersection. *)
Theorem Plane_normal_orientation (position normal color : Vector3.t)
    (ray : Ray.t) :
  (in_normal_range (Vector3.length normal) ->
   Vector3.length (Plane.normal (Plane.new position normal color)) = 1) /\
  (Vector3.length normal = 0 ->
   Plane.intersect (Plane.new position normal color) ray = None) /\
  Plane.intersect (Plane.mk position (Vector3.multiply normal (-1)) color) ray
  = Plane.intersect (Plane.mk position normal color) ray.
Proof.
  split; [| split].
  - intros Hn. simpl. apply normalize_unit.
    now apply in_normal_range_nonzero.
  - intros H0. rewrite Plane_intersect_unfold. simpl.
    rewrite (normalize_zero _ H0).
    replace (Vector3.dot (Vector3.new 0 0 0) (Ray.direction ray)) with 0
      by (unfold Vector3.dot; simpl; ring).
    rewrite Rabs_R0. destruct (Rgt_dec 0 0.001); [lra | reflexivity].
  - rewrite !Plane_intersect_unfold. simpl.
    replace (Vector3.dot (Vector3.multiply normal (-1)) (Ray.direction ray))
      with (- Vector3.dot normal (Ray.direction ray))
      by (unfold Vector3.dot, Vector3.multiply; simpl; ring).
    replace (Vector3.dot (Vector3.subtract position (Ray.origin ray))
                         (Vector3.multiply normal (-1)))
      with (- Vector3.dot (Vector3.subtract position (Ray.origin ray)) normal)
      by (unfold Vector3.dot, Vector3.multiply; simpl; ring).
    rewrite Rabs_Ropp.
    destruct (Rgt_dec _ 0.001) as [Hd |]; [| reflexivity].
    assert (Hne : Vector3.dot normal (Ray.direction ray) <> 0)
      by (intros H0; rewrite H0, Rabs_R0 in Hd; lra).
    replace (- Vector3.dot (Vector3.subtract position (Ray.origin ray)) normal
             / - Vector3.dot normal (Ray.direction ray))
      with (Vector3.dot (Vector3.subtract position (Ray.origin ray)) normal
            / Vector3.dot normal (Ray.direction ray))
      by (field; exact Hne).
    reflexivity.
Qed.

(** * Scenes: what the nearest hit is, and what leaves it unchanged *)

Lemma SceneObject_hit_sound (obj : SceneObject.t) (ray : Ray.t) (t0 : R) :
  SceneObject.intersect obj ray = Some t0 ->
  t0 >= 0.001 /\ on_surface obj (Ray.pointAt ray t0).
Proof.
  destruct obj as [pos col | s | p]; simpl; intros H.
  - discriminate.
  - apply intersect_Some_cases in H as Hc.
    destruct Hc as (Hd & Ha & Ht & Hcases).
    split; [lra |]. apply on_sphere_iff.
    destruct (quad_roots s ray Hd Ha) as [Hn Hf].
    destruct Hcases as [-> | [_ ->]]; assumption.
  - rewrite Plane_intersect_unfold in H. rewrite plane_offset.
    destruct (Rgt_dec _ 0.001) as [Hd |]; [| discriminate].
    destruct (Rge_dec _ 0.001) as [Ht |]; [| discriminate].
    injection H as <-. split; [exact Ht |].
    field. intros H0. rewrite H0, Rabs_R0 in Hd. lra.
Qed.

Lemma shadow_scan_app (shadowRay : Ray.t) (lightDistance : R)
    (objs more : list SceneObject.t) :
  Scene.shadow_scan shadowRay lightDistance (objs ++ more) =
  Scene.shadow_scan shadowRay lightDistance objs
  || Scene.shadow_scan shadowRay lightDistance more.
Proof.
  induction objs as [| obj rest IH]; simpl; [reflexivity |].
  destruct (SceneObject.intersect obj shadowRay) as [shadowT |];
    [| exact IH].
  destruct (Rlt_dec shadowT lightDistance); [reflexivity | exact IH].
Qed.

(** An object that no ray hits, added to a scene, changes no trace. *)
Lemma trace_addObject_unhit (s : Scene.t) (object : SceneObject.t)
    (ray : Ray.t) (depth maxDepth : R) :
  (forall r : Ray.t, SceneObject.intersect object r = None) ->
  Scene.trace (Scene.addObject s object) ray depth maxDepth
  = Scene.trace s ray depth maxDepth.
Proof.
  intros Hmiss. unfold Scene.trace.
  destruct (Rge_dec depth maxDepth); [reflexivity |].
  cbn [Scene.addObject Scene.objects Scene.backgroundColor].
  rewrite closest_scan_app. cbn [Scene.closest_scan].
  unfold Scene.closest_step at 1. rewrite Hmiss.
  destruct (Scene.closest_scan ray (Scene.objects s) None)
    as [[t0 obj] |]; [| reflexivity].
  f_equal. unfold Scene.shade.
  cbn [Scene.addObject Scene.objects Scene.lights].
  generalize (Vector3.new 0 0 0).
  induction (Scene.lights s) as [| light rest IH]; intros color;
    [reflexivity |].
  cbn [fold_left]. rewrite IH. f_equal.
  rewrite !light_step_unfold, shadow_scan_app.
  cbn [Scene.shadow_scan]. rewrite Hmiss, orb_false_r. reflexivity.
Qed.

(** X13: an object of the base class is hit by no ray, its normal is
    the zero vector, and adding one to a scene changes no trace. *)
Theorem Base_object_invisible (s : Scene.t) (position color : Vector3.t)
    (ray : Ray.t) (point : Vector3.t) (depth maxDepth : R) :
  SceneObject.intersect (SceneObject.Base position color) ray = None /\
  SceneObject.normalAt (SceneObject.Base position color) point
    = Vector3.new 0 0 0 /\
  Scene.trace (Scene.addObject s (SceneObject.Base position color))
              ray depth maxDepth
  = Scene.trace s ray depth maxDepth.
Proof.
  split; [reflexivity |]. split; [reflexivity |].
  apply trace_addObject_unhit. reflexivity.
Qed.

(** X14: when the nearest-hit loop selects [obj] at distance [t0], the
    object belongs to the scene, [t0] is the distance its own [intersect]
    returns for the ray, and [t0] is at least 0.001. *)
Theorem closest_hit_is_own_hit (ray : Ray.t) (objs : list SceneObject.t)
    (t0 : R) (obj : SceneObject.t) :
  Scene.closest_scan ray objs None = Some (t0, obj) ->
  obj ∈ objs /\ SceneObject.intersect obj ray = Some t0 /\ t0 >= 0.001.
Proof.
  intros H. split; [eapply closest_scan_elem; eauto |].
  apply closest_scan_Some_iff in H as (i & Hi & Hhit & _).
  split; [exact Hhit |]. exact (proj1 (SceneObject_hit_sound _ _ _ Hhit)).
Qed.

Lemma closest_hit_is_own_hit_witness :
  wall red ∈ Scene.objects two_walls /\
  SceneObject.intersect (wall red) axis_ray = Some 10 /\ 10 >= 0.001.
Proof.
  exact (closest_hit_is_own_hit axis_ray (Scene.objects two_walls) 10
           (wall red) two_walls_closest).
Defined.

(** The distance of the nearest hit is the least of the hit distances. *)
Lemma closest_distance_le (ray : Ray.t) (objs objs' : list SceneObject.t)
    (t0 t1 : R) (obj obj' : SceneObject.t) :
  (forall o : SceneObject.t, o ∈ objs' -> o ∈ objs) ->
  Scene.closest_scan ray objs None = Some (t0, obj) ->
  Scene.closest_scan ray objs' None = Some (t1, obj') ->
  t0 <= t1.
Proof.
  intros Hsub H H'.
  apply closest_scan_Some_iff in H as (i & _ & _ & Hmin & _).
  apply closest_scan_Some_iff in H' as (j & Hj & Hhit' & _).
  assert (Hin : obj' ∈ objs)
    by (apply Hsub; eapply list_elem_of_lookup_2; eauto).
  apply list_elem_of_lookup_1 in Hin as [k Hk].
  exact (Hmin k obj' t1 Hk Hhit').
Qed.

(** X15: the distance of the nearest hit does not depend on the order
    of the objects: for two scenes holding the same objects in different
    orders the scan finds the same distance (the object may differ only
    among those hit at exactly that distance), or finds nothing in
    both. *)
Theorem closest_distance_order_free (ray : Ray.t)
    (objs objs' : list SceneObject.t) :
  objs ≡ₚ objs' ->
  fst <$> Scene.closest_scan ray objs None
  = fst <$> Scene.closest_scan ray objs' None.
Proof.
  intros Hperm.
  assert (Hsub : forall o : SceneObject.t, o ∈ objs <-> o ∈ objs')
    by (intros o; now rewrite Hperm).
  destruct (Scene.closest_scan ray objs None) as [[t0 obj] |] eqn:H;
    destruct (Scene.closest_scan ray objs' None) as [[t1 obj'] |] eqn:H';
    simpl; try reflexivity.
  - f_equal. apply Rle_antisym.
    + eapply (closest_distance_le ray objs objs'); eauto.
      intros o. apply Hsub.
    + eapply (closest_distance_le ray objs' objs); eauto.
      intros o. apply Hsub.
  - exfalso. apply closest_scan_None_iff in H'.
    apply closest_scan_elem in H as Hin.
    apply closest_scan_Some_iff in H as (i & _ & Hhit & _).
    rewrite (H' obj) in Hhit by now apply Hsub. discriminate.
  - exfalso. apply closest_scan_None_iff in H.
    apply closest_scan_elem in H' as Hin.
    apply closest_scan_Some_iff in H' as (i & _ & Hhit & _).
    rewrite (H obj') in Hhit by now apply Hsub. discriminate.
Qed.

Lemma closest_distance_order_free_witness :
  fst <$> Scene.closest_scan axis_ray [wall red; wall blue] None
  = fst <$> Scene.closest_scan axis_ray [wall blue; wall red] None.
Proof.
  apply closest_distance_order_free. apply Permutation_swap.
Defined.

(** * Scenes: the colour that comes back *)


Lemma clamp_zero : Scene.clamp (Vector3.new 0 0 0) = Vector3.new 0 0 0.
Proof.
  unfold Scene.clamp; simpl.
  assert (H : Rmin 1 (Rmax 0 0) = 0).
  { unfold Rmin, Rmax. destruct (Rle_dec 0 0); destruct (Rle_dec 1 0); lra. }
  now rewrite H.
Qed.

Lemma trace_unfold (s : Scene.t) (ray : Ray.t) (depth maxDepth : R) :
  depth < maxDepth ->
  Scene.trace s ray depth maxDepth = Scene.trace_default s ray.
Proof.
  intros Hd. unfold Scene.trace_default, Scene.trace.
  destruct (Rge_dec depth maxDepth); [lra |].
  destruct (Rge_dec 0 3); [lra | reflexivity].
Qed.

(** X16: [trace] does not depend on [depth] and [maxDepth] as long as
    [depth < maxDepth] (it never calls itself); a scene with no object
    gives the background colour whatever its lights; a hit in a scene with
    no light gives black, not the background. *)
Theorem trace_degenerate_scenes (s : Scene.t) (ray : Ray.t)
    (depth maxDepth : R) :
  (depth < maxDepth ->
   Scene.trace s ray depth maxDepth = Scene.trace_default s ray) /\
  (Scene.objects s = [] ->
   Scene.trace s ray depth maxDepth = Scene.backgroundColor s) /\
  (Scene.lights s = [] -> depth < maxDepth ->
   forall (t0 : R) (obj : SceneObject.t),
     Scene.closest_scan ray (Scene.objects s) None = Some (t0, obj) ->
     Scene.trace s ray depth maxDepth = Vector3.new 0 0 0).
Proof.
  split; [apply trace_unfold |]. split.
  - intros Hobjs. unfold Scene.trace. rewrite Hobjs. simpl.
    now destruct (Rge_dec depth maxDepth).
  - intros Hlights Hd t0 obj Hhit.
    rewrite trace_unfold by exact Hd.
    rewrite trace_default_unfold, Hhit.
    unfold Scene.shade. rewrite Hlights. simpl. apply clamp_zero.
Qed.









(** * No primitive shadows its own lit side *)

Lemma plane_self_shadow_back (p : Plane.t) (point : Vector3.t)
    (light : Light.t) (t0 : R) :
  on_surface (SceneObject.OfPlane p) point ->
  Plane.intersect p (shadow_ray point (Plane.normal p) light) = Some t0 ->
  Vector3.dot (Plane.normal p) (light_direction point light) < 0.
Proof.
  simpl. intros Hon Hhit. rewrite Plane_intersect_unfold in Hhit.
  simpl in Hhit.
  set (denom := Vector3.dot (Plane.normal p) (light_direction point light))
    in *.
  set (numer := Vector3.dot _ (Plane.normal p)) in Hhit.
  assert (Hnum : numer = - 0.001 * Vector3.dot (Plane.normal p) (Plane.normal p)).
  { unfold numer. unfold Vector3.dot in *; simpl in *. lra. }
  pose proof (dot_self_nonneg (Plane.normal p)) as Hnn.
  destruct (Rgt_dec (Rabs denom) 0.001) as [Hd |]; [| discriminate].
  destruct (Rge_dec (numer / denom) 0.001) as [Ht |]; [| discriminate].
  destruct (Rlt_le_dec denom 0) as [Hneg | Hpos]; [exact Hneg | exfalso].
  assert (Hd0 : 0 < denom).
  { destruct Hpos as [Hlt | Heq]; [exact Hlt |].
    rewrite <- Heq, Rabs_R0 in Hd. lra. }
  assert (Hinv : 0 < / denom) by now apply Rinv_0_lt_compat.
  unfold Rdiv in Ht. nra.
Qed.

Lemma sphere_self_shadow_back (s : Sphere.t) (point : Vector3.t)
    (light : Light.t) (t0 : R) :
  on_surface (SceneObject.OfSphere s) point ->
  Sphere.intersect s (shadow_ray point (Sphere.normalAt s point) light)
    = Some t0 ->
  Vector3.dot (Sphere.normalAt s point) (light_direction point light) < 0.
Proof.
  simpl. intros Hon Hhit.
  destruct (Rlt_le_dec
              (Vector3.dot (Sphere.normalAt s point)
                           (light_direction point light)) 0)
    as [Hneg | Hpos]; [exact Hneg | exfalso].
  rewrite intersect_away_None in Hhit; [discriminate | |].
  - (* the biased origin is no nearer to the centre than the surface *)
    rewrite <- Hon, !distanceTo_length. simpl. unfold Sphere.normalAt.
    set (w := Vector3.subtract point (Sphere.position s)).
    replace (Vector3.subtract
               (Vector3.add point
                  (Vector3.multiply (Vector3.normalize w) 0.001))
               (Sphere.position s))
      with (Vector3.multiply (Vector3.normalize w)
                             (Vector3.length w + 0.001)).
    2:{ pose proof (f_equal Vector3.x (normalize_scale_back w)) as Hx.
        pose proof (f_equal Vector3.y (normalize_scale_back w)) as Hy.
        pose proof (f_equal Vector3.z (normalize_scale_back w)) as Hz.
        cbn [Vector3.x Vector3.y Vector3.z Vector3.multiply] in Hx, Hy, Hz.
        apply Vector3_ext;
          cbn [Vector3.x Vector3.y Vector3.z Vector3.multiply Vector3.add
               Vector3.subtract];
          [rewrite Rmult_plus_distr_l, Hx
          | rewrite Rmult_plus_distr_l, Hy
          | rewrite Rmult_plus_distr_l, Hz];
          unfold w; simpl; ring. }
    rewrite length_multiply.
    pose proof (length_nonneg w) as Hw.
    rewrite Rabs_pos_eq by lra.
    destruct (Req_dec_T (Vector3.length w) 0) as [H0 | Hn].
    + rewrite H0.
      pose proof (length_nonneg (Vector3.normalize w)). nra.
    + rewrite normalize_unit by exact Hn. lra.
  - (* and the shadow ray does not point back to the sphere *)
    simpl. unfold Sphere.normalAt in *.
    set (w := Vector3.subtract point (Sphere.position s)) in *.
    set (L := light_direction point light) in *.
    pose proof (length_nonneg w) as Hw.
    replace (Vector3.dot
               (Vector3.subtract
                  (Vector3.add point
                     (Vector3.multiply (Vector3.normalize w) 0.001))
                  (Sphere.position s)) L)
      with (Vector3.dot w L + 0.001 * Vector3.dot (Vector3.normalize w) L)
      by (unfold w, Vector3.dot; simpl; ring).
    assert (Hwl : Vector3.dot w L
                  = Vector3.length w * Vector3.dot (Vector3.normalize w) L).
    { rewrite <- (normalize_scale_back w) at 1.
      unfold Vector3.dot, Vector3.multiply; simpl. ring. }
    rewrite Hwl. nra.
Qed.

Lemma self_shadow_back (obj : SceneObject.t) (point : Vector3.t)
    (light : Light.t) (t0 : R) :
  on_surface obj point ->
  SceneObject.intersect obj
    (shadow_ray point (SceneObject.normalAt obj point) light) = Some t0 ->
  Vector3.dot (SceneObject.normalAt obj point) (light_direction point light)
  < 0.
Proof.
  destruct obj as [pos col | s | p]; simpl.
  - intros [].
  - apply sphere_self_shadow_back.
  - apply plane_self_shadow_back.
Qed.

Lemma lone_light_step (obj : SceneObject.t) (point color : Vector3.t)
    (light : Light.t) :
  on_surface obj point ->
  Scene.light_step [obj] obj point (SceneObject.normalAt obj point) color light
  = Vector3.add
      (Vector3.add color
         (diffuse_color obj point (SceneObject.normalAt obj point) light))
      (Vector3.multiply (SceneObject.color obj) 0.2).
Proof.
  intros Hon. rewrite light_step_unfold.
  destruct (Scene.shadow_scan _ _ [obj]) eqn:Hscan; [| reflexivity].
  apply shadow_scan_true_iff in Hscan as (o & t0 & Ho & Hhit & _).
  apply list_elem_of_singleton in Ho. subst o.
  pose proof (self_shadow_back obj point light t0 Hon Hhit) as Hback.
  unfold diffuse_color. rewrite Rmax_left by lra.
  apply Vector3_ext; simpl; ring.
Qed.

Lemma lone_fold (obj : SceneObject.t) (point : Vector3.t)
    (lights : list Light.t) (color : Vector3.t) :
  on_surface obj point ->
  fold_left
    (Scene.light_step [obj] obj point (SceneObject.normalAt obj point))
    lights color
  = Vector3.add color
      (Vector3.add
         (lambert_total obj point (SceneObject.normalAt obj point) lights)
         (Vector3.multiply (SceneObject.color obj)
                           (INR (length lights) * 0.2))).
Proof.
  intros Hon. revert color.
  induction lights as [| light rest IH]; intros color.
  - simpl. apply Vector3_ext; simpl; ring.
  - cbn [fold_left]. rewrite IH, lone_light_step by exact Hon.
    cbn [lambert_total length]. rewrite S_INR.
    apply Vector3_ext; simpl; ring.
Qed.

(** X19: a primitive alone in a scene never shadows its own lit side.
    Take a scene of moderate scale with one object: position within 1000
    of the origin, a sphere of radius between 0.1 and 1000 or a plane
    with a normal of length 1; a ray with a direction of length 1 from
    within 1000 of the origin that hits the object at a distance of at
    most 1000; every light between 0.001 and [1e6] away from the hit
    point.  Then the shadow test changes nothing: the traced colour is the
    clamp of the sum over all lights of
    [color * (max(0, normal . lightDirection) * intensity)] plus
    [0.2 * color] per light. *)
Theorem lone_object_unshadowed (s : Scene.t) (obj : SceneObject.t)
    (ray : Ray.t) (t0 : R) :
  Scene.objects s = [obj] ->
  SceneObject.intersect obj ray = Some t0 ->
  at_scene_scale obj ->
  Vector3.length (Ray.direction ray) = 1 ->
  Vector3.length (Ray.origin ray) <= 1000 ->
  t0 <= 1000 ->
  Forall (light_in_reach (Ray.pointAt ray t0)) (Scene.lights s) ->
  let point := Ray.pointAt ray t0 in
  let normal := SceneObject.normalAt obj point in
  Scene.trace_default s ray =
  Scene.clamp
    (Vector3.add
       (lambert_total obj point normal (Scene.lights s))
       (Vector3.multiply (SceneObject.color obj)
                         (INR (length (Scene.lights s)) * 0.2))).
Proof.
  intros Hobjs Hhit _ _ _ _ _ point normal.
  destruct (SceneObject_hit_sound obj ray t0 Hhit) as [_ Hon].
  rewrite trace_default_unfold, Hobjs. simpl.
  unfold Scene.closest_step. rewrite Hhit.
  unfold Scene.shade. rewrite Hobjs.
  fold point. fold normal. unfold normal.
  rewrite lone_fold by exact Hon.
  f_equal. apply Vector3_ext; simpl; ring.
Qed.

Lemma lone_object_unshadowed_witness :
  let point := Ray.pointAt axis_ray 10 in
  let normal := SceneObject.normalAt (wall red) point in
  Scene.trace_default lone_wall axis_ray =
  Scene.clamp
    (Vector3.add
       (lambert_total (wall red) point normal (Scene.lights lone_wall))
       (Vector3.multiply (SceneObject.color (wall red))
                         (INR (length (Scene.lights lone_wall)) * 0.2))).
Proof.
  apply (lone_object_unshadowed lone_wall (wall red) axis_ray 10).
  - reflexivity.
  - apply wall_intersect.
  - split.
    + change (Vector3.length (Vector3.new 0 0 0) <= 1000).
      rewrite length_on_z_axis; lra.
    + change (Vector3.length (Vector3.normalize (Vector3.new 0 0 1)) = 1).
      apply normalize_unit. rewrite length_z_unit. lra.
  - change (Vector3.length (Vector3.normalize (Vector3.new 0 0 (-1))) = 1).
    apply normalize_unit.
    replace (Vector3.new 0 0 (-1))
      with (Vector3.multiply (Vector3.new 0 0 1) (-1))
      by (apply Vector3_ext; simpl; ring).
    rewrite length_multiply, length_z_unit.
    replace (-1) with (- (1)) by ring. rewrite Rabs_Ropp, Rabs_R1. lra.
  - change (Vector3.length (Vector3.new 0 0 10) <= 1000).
    rewrite length_on_z_axis; lra.
  - lra.
  - apply Forall_cons. split; [| apply Forall_nil; exact I].
    unfold light_in_reach.
    replace (Vector3.distanceTo (Light.position lamp)
                                (Ray.pointAt axis_ray 10)) with 10.
    + lra.
    + symmetry. rewrite axis_ray_eq.
      replace (Ray.pointAt _ 10) with (Vector3.new 0 0 0)
        by (apply Vector3_ext; simpl; ring).
      apply distanceTo_origin_z. lra.
Defined.

(** * The renderer: the frame, the camera rays, the bytes *)

(** X20: a render changes nothing but the cells of the image: the
    scene and the sizes stay, the buffer keeps its length (a write past
    the end of a short buffer is dropped), and every cell from
    [W * H * 4] on keeps its value.  The constructor allocates exactly
    [W * H * 4] cells. *)
Theorem render_frame (this : Renderer.t) :
  Renderer.scene (Renderer.render this) = Renderer.scene this /\
  Renderer.width (Renderer.render this) = Renderer.width this /\
  Renderer.height (Renderer.render this) = Renderer.height this /\
  length (Renderer.imageData (Renderer.render this))
    = length (Renderer.imageData this) /\
  (forall j : nat,
      (Renderer.width this * Renderer.height this * 4 <= j)%nat ->
      Renderer.imageData (Renderer.render this) !! j
      = Renderer.imageData this !! j) /\
  (forall (w h : nat) (scene : Scene.t),
      length (Renderer.imageData (Renderer.new w h scene))
      = (w * h * 4)%nat).
Proof.
  split; [reflexivity |]. split; [reflexivity |]. split; [reflexivity |].
  split; [apply render_length |]. split.
  - intros j Hj. apply render_beyond. lia.
  - intros w h scene. apply new_length.
Qed.

Section CameraRays.

Variables (this : Renderer.t) (px py : nat).

Let aim : Vector3.t := Vector3.new (ndc_x this px) (ndc_y this py) (-1).

Lemma aim_length_ge_1 : 1 <= Vector3.length aim.
Proof.
  rewrite <- sqrt_1 at 1. unfold Vector3.length. apply sqrt_le_1_alt.
  unfold aim; simpl. nra.
Qed.

Lemma pixel_ray_direction :
  Ray.direction (Renderer.pixel_ray this px py) = Vector3.normalize aim.
Proof.
  unfold Renderer.pixel_ray, Ray.new; simpl.
  now rewrite normalize_idempotent.
Qed.

Lemma pixel_ray_unit :
  Vector3.length (Ray.direction (Renderer.pixel_ray this px py)) = 1.
Proof.
  rewrite pixel_ray_direction. apply normalize_unit.
  pose proof aim_length_ge_1. lra.
Qed.

Lemma pixel_ray_looks_down_z :
  Vector3.z (Ray.direction (Renderer.pixel_ray this px py)) < 0.
Proof.
  rewrite pixel_ray_direction.
  pose proof aim_length_ge_1 as Hl.
  rewrite normalize_nonzero by lra. simpl.
  assert (Hinv : 0 < / Vector3.length aim)
    by (apply Rinv_0_lt_compat; lra).
  lra.
Qed.

End CameraRays.

Lemma unit_interval_ratio (i n : nat) :
  (i < n)%nat -> 0 <= INR i / INR n < 1.
Proof.
  intros Hlt.
  pose proof (pos_INR i) as Hi. apply lt_INR in Hlt as Hin.
  assert (Hn : 0 < INR n) by lra.
  assert (Hinv : 0 < / INR n) by now apply Rinv_0_lt_compat.
  unfold Rdiv. split; [nra |].
  apply Rmult_lt_reg_r with (INR n); [exact Hn |].
  rewrite Rmult_assoc, Rinv_l, Rmult_1_r by lra. lra.
Qed.

(** X21: the pixels of a [W x H] image map into the square
    [-1 <= x < 1], [-1 < y <= 1], the pixel [(0, 0)] to its corner
    [(-1, 1)] (row 0 is the top).  Every camera ray starts at
    [(0, 2, 10)] and has a direction of length 1 that looks down the z
    axis, so the coefficient [a] that [Sphere.intersect] divides by is 1
    for a camera ray. *)
Theorem camera_ray_well_formed (this : Renderer.t) (px py : nat) :
  (px < Renderer.width this)%nat ->
  (py < Renderer.height this)%nat ->
  -1 <= ndc_x this px < 1 /\
  -1 < ndc_y this py <= 1 /\
  ndc_x this 0 = -1 /\ ndc_y this 0 = 1 /\
  Ray.origin (Renderer.pixel_ray this px py) = Vector3.new 0 2 10 /\
  Ray.direction (Renderer.pixel_ray this px py)
    = Vector3.normalize (Vector3.new (ndc_x this px) (ndc_y this py) (-1)) /\
  Vector3.length (Ray.direction (Renderer.pixel_ray this px py)) = 1 /\
  Vector3.z (Ray.direction (Renderer.pixel_ray this px py)) < 0 /\
  quad_a (Renderer.pixel_ray this px py) = 1.
Proof.
  intros Hpx Hpy.
  pose proof (unit_interval_ratio px _ Hpx) as Hx.
  pose proof (unit_interval_ratio py _ Hpy) as Hy.
  pose proof (pixel_ray_unit this px py) as Hu.
  split; [unfold ndc_x; lra |]. split; [unfold ndc_y; lra |].
  split; [unfold ndc_x; simpl; unfold Rdiv; ring |].
  split; [unfold ndc_y; simpl; unfold Rdiv; ring |].
  split; [reflexivity |].
  split; [apply pixel_ray_direction |].
  split; [exact Hu |].
  split; [apply pixel_ray_looks_down_z |].
  unfold quad_a. rewrite <- length_sqr, Hu. ring.
Qed.

Lemma camera_ray_well_formed_witness :
  let this := Renderer.new 2 2 Scene.new in
  -1 <= ndc_x this 1 < 1 /\
  -1 < ndc_y this 1 <= 1 /\
  ndc_x this 0 = -1 /\ ndc_y this 0 = 1 /\
  Ray.origin (Renderer.pixel_ray this 1 1) = Vector3.new 0 2 10 /\
  Ray.direction (Renderer.pixel_ray this 1 1)
    = Vector3.normalize (Vector3.new (ndc_x this 1) (ndc_y this 1) (-1)) /\
  Vector3.length (Ray.direction (Renderer.pixel_ray this 1 1)) = 1 /\
  Vector3.z (Ray.direction (Renderer.pixel_ray this 1 1)) < 0 /\
  quad_a (Renderer.pixel_ray this 1 1) = 1.
Proof.
  apply (camera_ray_well_formed (Renderer.new 2 2 Scene.new) 1 1);
    simpl; lia.
Defined.




(** X23: with no object in the scene every pixel is the background
    colour: red, green and blue hold [floor(channel * 255)] of it,
    saturated to [0, 255] by the buffer, and alpha holds 255; for a
    background with channels in [0, 1] the three bytes are the floors
    themselves. *)
Theorem render_empty_scene (this : Renderer.t) (px py : nat) :
  Scene.objects (Renderer.scene this) = [] ->
  (px < Renderer.width this)%nat ->
  (py < Renderer.height this)%nat ->
  length (Renderer.imageData this)
    = (Renderer.width this * Renderer.height this * 4)%nat ->
  let background := Scene.backgroundColor (Renderer.scene this) in
  let offset := ((py * Renderer.width this + px) * 4)%nat in
  let data := Renderer.imageData (Renderer.render this) in
  data !! offset
    = Some (Renderer.toUint8Clamp (Zfloor (Vector3.x background * 255))) /\
  data !! (offset + 1)%nat
    = Some (Renderer.toUint8Clamp (Zfloor (Vector3.y background * 255))) /\
  data !! (offset + 2)%nat
    = Some (Renderer.toUint8Clamp (Zfloor (Vector3.z background * 255))) /\
  data !! (offset + 3)%nat = Some 255%Z /\
  (in_unit_range background ->
   data !! offset = Some (Zfloor (Vector3.x background * 255)) /\
   data !! (offset + 1)%nat = Some (Zfloor (Vector3.y background * 255)) /\
   data !! (offset + 2)%nat = Some (Zfloor (Vector3.z background * 255))).
Proof.
  intros Hobjs Hpx Hpy Hlen background offset data.
  assert (Hbg : forall ray : Ray.t,
            Scene.trace_default (Renderer.scene this) ray = background).
  { intros ray. rewrite trace_default_unfold, Hobjs. reflexivity. }
  assert (Hin : forall k : nat, (k < 4)%nat ->
            data !! (offset + k)%nat = Some (pixel_channel this px py k)).
  { intros k Hk.
    change (data !! (offset + k)%nat)
      with (Renderer.imageData (Renderer.render this)
              !! (pixel_offset this px py + k)%nat).
    rewrite render_at by assumption.
    destruct (Renderer.imageData this !! (pixel_offset this px py + k)%nat)
      as [old |] eqn:Hold; [reflexivity |].
    apply lookup_ge_None in Hold. unfold pixel_offset in Hold.
    rewrite Hlen in Hold. nia. }
  unfold pixel_channel in Hin. rewrite Hbg in Hin.
  assert (H0 : data !! offset
               = Some (Renderer.toUint8Clamp
                         (Zfloor (Vector3.x background * 255)))).
  { rewrite <- (Nat.add_0_r offset). now rewrite Hin by lia. }
  assert (H1 : data !! (offset + 1)%nat
               = Some (Renderer.toUint8Clamp
                         (Zfloor (Vector3.y background * 255))))
    by now rewrite Hin by lia.
  assert (H2 : data !! (offset + 2)%nat
               = Some (Renderer.toUint8Clamp
                         (Zfloor (Vector3.z background * 255))))
    by now rewrite Hin by lia.
  split; [exact H0 |]. split; [exact H1 |]. split; [exact H2 |].
  split; [now rewrite Hin by lia |].
  intros (Hx & Hy & Hz).
  rewrite H0, H1, H2.
  rewrite !toUint8Clamp_byte by (apply floor_channel_byte; assumption).
  auto.
Qed.


Lemma floor_default_background :
  Zfloor (0.1 * 255) = 25%Z /\ Zfloor (0.2 * 255) = 51%Z.
Proof. split; apply Zfloor_eq; simpl; lra. Qed.

(** The default background [(0.1, 0.1, 0.2)] gives the bytes
    25, 25, 51, 255. *)
Lemma render_empty_scene_witness :
  let data :=
    Renderer.imageData (Renderer.render (Renderer.new 2 2 Scene.new)) in
  data !! 4%nat = Some 25%Z /\ data !! 5%nat = Some 25%Z /\
  data !! 6%nat = Some 51%Z /\ data !! 7%nat = Some 255%Z.
Proof.
  intros data.
  destruct (render_empty_scene (Renderer.new 2 2 Scene.new) 1 0)
    as (Hr & Hg & Hb & Ha & _); try reflexivity; try (simpl; lia).
  destruct floor_default_background as [H25 H51].
  change (data !! 4%nat
          = Some (Renderer.toUint8Clamp (Zfloor (0.1 * 255)))) in Hr.
  change (data !! 5%nat
          = Some (Renderer.toUint8Clamp (Zfloor (0.1 * 255)))) in Hg.
  change (data !! 6%nat
          = Some (Renderer.toUint8Clamp (Zfloor (0.2 * 255)))) in Hb.
  change (data !! 7%nat = Some 255%Z) in Ha.
  rewrite H25 in Hr, Hg. rewrite H51 in Hb. auto.
Defined.
